(** * DesktopFix: a shallow embedding of [desktopfix.c]

    The INIT tail-patches two QuickDraw traps (FillCRgn, EraseRect).  After
    the original trap has run, the patch re-renders the desktop pixel
    pattern itself: it reads the 8-bit tile of a PixPat, looks every index
    up in the colour table and stores 32-bit pixels into the frame buffer.

    Conventions of the embedding.
    - C integers are [Z].  A value kept in a [short] after an arithmetic
      operation that may leave the 16-bit range is passed through [s16];
      [int] and [long] arithmetic (32 bits on this target) is plain [Z]
      arithmetic where the operands are shorts.
    - Pointers and handles are [Z] addresses, [0] being NULL.
    - The Memory Manager's relocatable blocks live in one heap, keyed by
      handle: an entry is the master pointer (absent when the handle is
      empty) together with the flags byte that [HGetState]/[HSetState]
      read and write.  A block is bytes, and every C handle type reads
      them in its own way; the heap keeps, for each block, what it reads
      as through each of the types the code uses ([PixPatHandle],
      [PixMapHandle], [Handle], [CTabHandle], [RgnHandle], [GDHandle]).
      Two handles of different types may be the same handle.
    - Raw pixel data and the colour-table array are total maps from an
      offset to the value found there: the 68k has no memory protection, a
      read past the logical end of a block yields whatever follows it. *)

From stdpp Require Import gmap list list_numbers.

Open Scope Z_scope.

(** ** Machine integers *)

(** Conversion of an [int] result to [short]. *)
Definition s16 (z : Z) : Z := (z + 32768) mod 65536 - 32768.

(** ** QuickDraw and Memory Manager data *)

Record Rect := mkRect { rtop : Z; rleft : Z; rbottom : Z; rright : Z }.

Record RGBColor := mkRGB { red : Z; green : Z; blue : Z }.

Record ColorSpec := mkColorSpec { value : Z; rgb : RGBColor }.

Record ColorTable := mkColorTable { ctTable : Z → ColorSpec }.

Record PixMap := mkPixMap {
  baseAddr : Z;
  rowBytes : Z;
  bounds : Rect;
  pixelSize : Z;
  pmTable : Z
}.

Record PixPat := mkPixPat { patType : Z; patMap : Z; patData : Z }.

(** A region: its bounding box and the point test of [PtInRgn]
    (horizontal coordinate first). *)
Record Region := mkRegion { rgnBBox : Rect; rgnHas : Z → Z → bool }.

Record GDevice := mkGDevice { gdPMap : Z }.

Record CGrafPort := mkCGrafPort { bkPixPat : Z }.

Record WindowRecord := mkWindow { strucRgn : Z }.

(** A relocatable block as seen through its handle. *)
Record Block (A : Type) := mkBlock { hState : Z; hPtr : option A }.
Arguments mkBlock {A} _ _.
Arguments hState {A} _.
Arguments hPtr {A} _.

Global Instance Block_inhabited A : Inhabited (Block A) :=
  populate (mkBlock 0 None).
Global Instance CGrafPort_inhabited : Inhabited CGrafPort :=
  populate (mkCGrafPort 0).

(** What the bytes of a block read as, through each handle type. *)
Record Contents := mkContents {
  asPixPat : PixPat;
  asPixMap : PixMap;
  asBytes : Z → Z;
  asColorTable : ColorTable;
  asRegion : Region;
  asGDevice : GDevice
}.

(** The state of the machine that the patch can see. *)
Record Mac := mkMac {
  heap : gmap Z (Block Contents);
  cports : gmap Z CGrafPort;
  mainDevice : Z;          (* GetMainDevice() *)
  thePort : Z;             (* GetPort() *)
  WMgrCPort : Z;           (* *(CGrafPtr * )0x0D2C *)
  MBarHeight : Z;          (* LM_MBarHeight *)
  WindowList : list WindowRecord;   (* LM_WindowList, along nextWindow *)
  ram : gmap Z Z           (* longs stored through the frame buffer pointer *)
}.

(** The heap as a handle of one type sees it: the same master pointers and
    flags bytes, the blocks read at that type. *)
Definition viewOf {A} (f : Contents → A) (hp : gmap Z (Block Contents))
  : gmap Z (Block A) :=
  (λ b, mkBlock (hState b) (f <$> hPtr b)) <$> hp.

Definition pixpats (m : Mac) : gmap Z (Block PixPat) :=
  viewOf asPixPat (heap m).
Definition pixmaps (m : Mac) : gmap Z (Block PixMap) :=
  viewOf asPixMap (heap m).
Definition datas (m : Mac) : gmap Z (Block (Z → Z)) :=
  viewOf asBytes (heap m).
Definition ctabs (m : Mac) : gmap Z (Block ColorTable) :=
  viewOf asColorTable (heap m).
Definition rgns (m : Mac) : gmap Z (Block Region) :=
  viewOf asRegion (heap m).
Definition gdevices (m : Mac) : gmap Z (Block GDevice) :=
  viewOf asGDevice (heap m).

(** The INIT's own globals. *)
Record Globals := mkGlobals {
  gInPatch : Z;
  gScreenBase : Z;
  gScreenRowBytes : Z;
  gScreenWidth : Z;
  gScreenHeight : Z;
  gScreenReady : Z
}.

Definition set_gInPatch (v : Z) (g : Globals) : Globals :=
  mkGlobals v (gScreenBase g) (gScreenRowBytes g) (gScreenWidth g)
            (gScreenHeight g) (gScreenReady g).

Definition set_heap (t : gmap Z (Block Contents)) (m : Mac) : Mac :=
  mkMac t (cports m) (mainDevice m) (thePort m) (WMgrCPort m) (MBarHeight m)
        (WindowList m) (ram m).

Definition set_ram (t : gmap Z Z) (m : Mac) : Mac :=
  mkMac (heap m) (cports m) (mainDevice m) (thePort m) (WMgrCPort m)
        (MBarHeight m) (WindowList m) t.

(** ** Handles *)

(** [h && *h]: the block a handle leads to, if any. *)
Definition deref {A} (tbl : gmap Z (Block A)) (h : Z) : option A :=
  if decide (h = 0) then None else hPtr (tbl !!! h).

Definition HGetState {A} (tbl : gmap Z (Block A)) (h : Z) : Z :=
  hState (tbl !!! h).

Definition HSetState {A} (h : Z) (flags : Z) (tbl : gmap Z (Block A))
  : gmap Z (Block A) :=
  <[h := mkBlock flags (hPtr (tbl !!! h))]> tbl.

(** [HLock] sets bit 7 of the flags byte. *)
Definition HLock {A} (h : Z) (tbl : gmap Z (Block A)) : gmap Z (Block A) :=
  HSetState h (Z.lor (HGetState tbl h) 128) tbl.

(** ** Regions *)

(** The Toolbox's [PtInRgn] for the point with horizontal coordinate [h] and
    vertical coordinate [v]. *)
Definition PtInRgn (h v : Z) (rgn : Region) : bool := rgnHas rgn h v.

(** ** The cached screen description *)

Definition EnsureScreenInfo (m : Mac) (g : Globals) : bool * Globals :=
  if decide (gScreenReady g ≠ 0) then (true, g)
  else
    match deref (gdevices m) (mainDevice m) with
    | None => (false, g)
    | Some dev =>
        match deref (pixmaps m) (gdPMap dev) with
        | None => (false, g)
        | Some pm =>
            if decide (pixelSize pm ≠ 32) then (false, g)
            else
              (true,
               mkGlobals (gInPatch g)
                         (baseAddr pm)
                         (Z.land (rowBytes pm) 16383)
                         (s16 (rright (bounds pm) - rleft (bounds pm)))
                         (s16 (rbottom (bounds pm) - rtop (bounds pm)))
                         1)
        end
    end.

(** ** Writing pixels *)

(** One [rowPtr[x] = pixel32] of the inner loop, [rowPtr] being the row
    pointer of surface row [srow]. *)
Record Store := mkStore { srow : Z; scol : Z; sval : Z }.

(** [rowPtr = (unsigned long * )(gScreenBase + (long)y * gScreenRowBytes)];
    [rowPtr[x]] is the long at byte offset [4 * x] from it. *)
Definition poke (g : Globals) (mem : gmap Z Z) (s : Store) : gmap Z Z :=
  <[gScreenBase g + srow s * gScreenRowBytes g + 4 * scol s := sval s]> mem.

Definition pokes (g : Globals) (l : list Store) (mem : gmap Z Z) : gmap Z Z :=
  foldl (poke g) mem l.

(** [for (i = lo; i < hi; i++) body]: the stores of the iterations, in
    order.  The loop variables are shorts that stay below a short bound,
    so the increment does not wrap. *)
Definition for_range (lo hi : Z) (body : Z → list Store) : list Store :=
  seqZ lo (hi - lo) ≫= body.

(** [t = c % size; if (t < 0) t += size;] with C's truncating [%]. *)
Definition tileCoord (c size : Z) : Z :=
  let t := Z.rem c size in
  if decide (t < 0) then t + size else t.

(** The conversion of a colour-table entry to a 32-bit pixel. *)
Definition pixel32 (cs : ColorSpec) : Z :=
  Z.lor (Z.lor (Z.shiftl (Z.shiftr (red (rgb cs)) 8) 16)
               (Z.shiftl (Z.shiftr (green (rgb cs)) 8) 8))
        (Z.shiftr (blue (rgb cs)) 8).

(** Clipping of the target rectangle to the cached screen size. *)
Definition clip (g : Globals) (r : Rect) : Rect :=
  let left := rleft r in
  let top := rtop r in
  let right := rright r in
  let bottom := rbottom r in
  let left := if decide (left < 0) then 0 else left in
  let top := if decide (top < 0) then 0 else top in
  let right := if decide (right > gScreenWidth g) then gScreenWidth g else right in
  let bottom := if decide (bottom > gScreenHeight g) then gScreenHeight g else bottom in
  mkRect top left bottom right.

(** ** The two renderers

    Both return the stores they performed together with the machine state
    they leave.  The three handles are cast to [Handle] for [HGetState],
    [HLock] and [HSetState], which act on the one heap.  The caller of
    [RenderPatternInRgn] has checked [rgn && *rgn]; the renderer receives
    the region the handle leads to. *)

Definition RenderPatternInRgn (g : Globals) (rgn : Region) (pp : Z) (m : Mac)
  : list Store * Mac :=
  match deref (pixpats m) pp with
  | None => ([], m)
  | Some P =>
      if decide (patType P ≠ 1) then ([], m)
      else
        let patMapH := patMap P in
        let patDataH := patData P in
        match deref (pixmaps m) patMapH, deref (datas m) patDataH with
        | Some patMap, Some patData =>
            let patMapState := HGetState (heap m) patMapH in
            let m1 := set_heap (HLock patMapH (heap m)) m in
            let patDataState := HGetState (heap m1) patDataH in
            let m2 := set_heap (HLock patDataH (heap m1)) m1 in
            let tileW := s16 (rright (bounds patMap) - rleft (bounds patMap)) in
            let tileH := s16 (rbottom (bounds patMap) - rtop (bounds patMap)) in
            let tileRowBytes := Z.land (rowBytes patMap) 16383 in
            let tileDepth := pixelSize patMap in
            if decide (tileW ≤ 0 ∨ tileH ≤ 0 ∨ tileDepth ≠ 8) then
              let m3 := set_heap (HSetState patMapH patMapState (heap m2)) m2 in
              let m4 := set_heap (HSetState patDataH patDataState (heap m3)) m3 in
              ([], m4)
            else
              let ctab := pmTable patMap in
              match deref (ctabs m2) ctab with
              | None =>
                  let m3 := set_heap (HSetState patMapH patMapState (heap m2)) m2 in
                  let m4 := set_heap (HSetState patDataH patDataState (heap m3)) m3 in
                  ([], m4)
              | Some ct =>
                  let ctabState := HGetState (heap m2) ctab in
                  let m3 := set_heap (HLock ctab (heap m2)) m2 in
                  let box := clip g (rgnBBox rgn) in
                  let stores :=
                    if decide (rleft box < rright box ∧ rtop box < rbottom box) then
                      for_range (rtop box) (rbottom box) (λ y,
                        let ty := tileCoord y tileH in
                        for_range (rleft box) (rright box) (λ x,
                          if PtInRgn x y rgn then
                            let tx := tileCoord x tileW in
                            let pixVal := patData (ty * tileRowBytes + tx) in
                            let cs := ctTable ct pixVal in
                            [mkStore y x (pixel32 cs)]
                          else []))
                    else [] in
                  let m4 := set_ram (pokes g stores (ram m3)) m3 in
                  let m5 := set_heap (HSetState ctab ctabState (heap m4)) m4 in
                  let m6 := set_heap (HSetState patMapH patMapState (heap m5)) m5 in
                  let m7 := set_heap (HSetState patDataH patDataState (heap m6)) m6 in
                  (stores, m7)
              end
        | _, _ => ([], m)
        end
  end.

Definition RenderPatternInRect (g : Globals) (r : Rect) (pp : Z) (m : Mac)
  : list Store * Mac :=
  match deref (pixpats m) pp with
  | None => ([], m)
  | Some P =>
      if decide (patType P ≠ 1) then ([], m)
      else
        let patMapH := patMap P in
        let patDataH := patData P in
        match deref (pixmaps m) patMapH, deref (datas m) patDataH with
        | Some patMap, Some patData =>
            let patMapState := HGetState (heap m) patMapH in
            let m1 := set_heap (HLock patMapH (heap m)) m in
            let patDataState := HGetState (heap m1) patDataH in
            let m2 := set_heap (HLock patDataH (heap m1)) m1 in
            let tileW := s16 (rright (bounds patMap) - rleft (bounds patMap)) in
            let tileH := s16 (rbottom (bounds patMap) - rtop (bounds patMap)) in
            let tileRowBytes := Z.land (rowBytes patMap) 16383 in
            let tileDepth := pixelSize patMap in
            if decide (tileW ≤ 0 ∨ tileH ≤ 0 ∨ tileDepth ≠ 8) then
              let m3 := set_heap (HSetState patMapH patMapState (heap m2)) m2 in
              let m4 := set_heap (HSetState patDataH patDataState (heap m3)) m3 in
              ([], m4)
            else
              let ctab := pmTable patMap in
              match deref (ctabs m2) ctab with
              | None =>
                  let m3 := set_heap (HSetState patMapH patMapState (heap m2)) m2 in
                  let m4 := set_heap (HSetState patDataH patDataState (heap m3)) m3 in
                  ([], m4)
              | Some ct =>
                  let ctabState := HGetState (heap m2) ctab in
                  let m3 := set_heap (HLock ctab (heap m2)) m2 in
                  let box := clip g r in
                  let stores :=
                    if decide (rleft box < rright box ∧ rtop box < rbottom box) then
                      for_range (rtop box) (rbottom box) (λ y,
                        let ty := tileCoord y tileH in
                        for_range (rleft box) (rright box) (λ x,
                          let tx := tileCoord x tileW in
                          let pixVal := patData (ty * tileRowBytes + tx) in
                          let cs := ctTable ct pixVal in
                          [mkStore y x (pixel32 cs)]))
                    else [] in
                  let m4 := set_ram (pokes g stores (ram m3)) m3 in
                  let m5 := set_heap (HSetState ctab ctabState (heap m4)) m4 in
                  let m6 := set_heap (HSetState patMapH patMapState (heap m5)) m5 in
                  let m7 := set_heap (HSetState patDataH patDataState (heap m6)) m6 in
                  (stores, m7)
              end
        | _, _ => ([], m)
        end
  end.

(** ** The guard *)

(** [GetPort(&currentPort); return currentPort == WMgrCPort]. *)
Definition IsWMgrDraw (m : Mac) : bool :=
  bool_decide (thePort m = WMgrCPort m).

(** The Toolbox's [RectInRgn]: the rectangle and the region share at least
    one pixel. *)
Definition RectInRgn (r : Rect) (rgn : Region) : bool :=
  existsb (λ v, existsb (λ h, PtInRgn h v rgn)
                        (seqZ (rleft r) (rright r - rleft r)))
          (seqZ (rtop r) (rbottom r - rtop r)).

(** The walk along [nextWindow], stopping at the last window. *)
Fixpoint IsRectInAnyWindowStruc (m : Mac) (r : Rect) (win : list WindowRecord)
  : bool :=
  match win with
  | [] => false
  | w :: next =>
      match next with
      | [] => false
      | _ :: _ =>
          match deref (rgns m) (strucRgn w) with
          | Some s =>
              if RectInRgn r s then true
              else IsRectInAnyWindowStruc m r next
          | None => IsRectInAnyWindowStruc m r next
          end
      end
  end.

(** ** The patched traps *)

Section Patches.

(** The saved trap addresses: the original FillCRgn and EraseRect, as
    transformers of the machine state.  EraseRect takes a pointer to a
    rectangle, which may be NULL. *)
Variable gOldFillCRgn : Z → Z → Mac → Mac.
Variable gOldEraseRect : option Rect → Mac → Mac.

Definition PatchedFillCRgn (rgn pp : Z) (st : Globals * Mac) : Globals * Mac :=
  let '(g, m) := st in
  if decide (gInPatch g ≠ 0) then (g, gOldFillCRgn rgn pp m)
  else
    let g1 := set_gInPatch 1 g in
    let m1 := gOldFillCRgn rgn pp m in
    let '(ready, g2) := EnsureScreenInfo m1 g1 in
    let m2 :=
      if ready then
        match deref (rgns m1) rgn with
        | Some R =>
            if IsWMgrDraw m1 then
              let bbox := rgnBBox R in
              if bool_decide (rright bbox - rleft bbox >= 4) &&
                 bool_decide (rbottom bbox - rtop bbox >= 4) &&
                 bool_decide (rright bbox - rleft bbox ≤ 250) &&
                 bool_decide (rbottom bbox - rtop bbox ≤ 250) &&
                 bool_decide (rtop bbox >= MBarHeight m1) &&
                 negb (IsRectInAnyWindowStruc m1 bbox (WindowList m1))
              then snd (RenderPatternInRgn g2 R pp m1)
              else m1
            else m1
        | None => m1
        end
      else m1 in
    (set_gInPatch 0 g2, m2).

Definition PatchedEraseRect (r : option Rect) (st : Globals * Mac)
  : Globals * Mac :=
  let '(g, m) := st in
  if decide (gInPatch g ≠ 0) then (g, gOldEraseRect r m)
  else
    let g1 := set_gInPatch 1 g in
    let m1 := gOldEraseRect r m in
    let '(ready, g2) := EnsureScreenInfo m1 g1 in
    let m2 :=
      if ready then
        match r with
        | Some rc =>
            if IsWMgrDraw m1 then
              if bool_decide (rright rc - rleft rc >= 2) &&
                 bool_decide (rbottom rc - rtop rc >= 2) &&
                 bool_decide (rright rc - rleft rc ≤ 250) &&
                 bool_decide (rbottom rc - rtop rc ≤ 250) &&
                 bool_decide (rtop rc >= MBarHeight m1) &&
                 negb (IsRectInAnyWindowStruc m1 rc (WindowList m1))
              then
                let wmPort := WMgrCPort m1 in
                if decide (wmPort ≠ 0 ∧ bkPixPat (cports m1 !!! wmPort) ≠ 0) then
                  snd (RenderPatternInRect g2 rc (bkPixPat (cports m1 !!! wmPort)) m1)
                else m1
              else m1
            else m1
        | None => m1
        end
      else m1 in
    (set_gInPatch 0 g2, m2).

End Patches.

(** ** Vocabulary of the specification *)

(** Tile geometry, as the renderers compute it from the pattern's pixel
    map. *)
Definition tileWidth (pm : PixMap) : Z :=
  s16 (rright (bounds pm) - rleft (bounds pm)).
Definition tileHeight (pm : PixMap) : Z :=
  s16 (rbottom (bounds pm) - rtop (bounds pm)).
Definition tileStride (pm : PixMap) : Z := Z.land (rowBytes pm) 16383.

(** [pixel[row, col]] of a tile stored row by row. *)
Definition tilePixel (pm : PixMap) (data : Z → Z) (row col : Z) : Z :=
  data (row * tileStride pm + col).

(** A colour channel is an [unsigned short]. *)
Definition channel16 (c : Z) : Prop := 0 ≤ c < 65536.
Definition wideColor (c : RGBColor) : Prop :=
  channel16 (red c) ∧ channel16 (green c) ∧ channel16 (blue c).

(** Points of a rectangle and of the cached surface. *)
Definition inRect (r : Rect) (x y : Z) : Prop :=
  rleft r ≤ x < rright r ∧ rtop r ≤ y < rbottom r.
Definition inSurface (g : Globals) (x y : Z) : Prop :=
  0 ≤ x < gScreenWidth g ∧ 0 ≤ y < gScreenHeight g.

(** The surface pixels a list of stores writes. *)
Definition written (l : list Store) (x y : Z) : Prop :=
  ∃ s, s ∈ l ∧ scol s = x ∧ srow s = y.
Definition strictly_fewer (a b : list Store) : Prop :=
  (∀ x y, written a x y → written b x y) ∧
  (∃ x y, written b x y ∧ ¬ written a x y).

(** The stores of the two pixel loops for a validated pattern. *)
Definition rgnLoop (g : Globals) (rgn : Region) (pm : PixMap) (data : Z → Z)
    (ct : ColorTable) : list Store :=
  let box := clip g (rgnBBox rgn) in
  if decide (rleft box < rright box ∧ rtop box < rbottom box) then
    for_range (rtop box) (rbottom box) (λ y,
      for_range (rleft box) (rright box) (λ x,
        if PtInRgn x y rgn then
          [mkStore y x
             (pixel32 (ctTable ct
                (data (tileCoord y (tileHeight pm) * tileStride pm
                       + tileCoord x (tileWidth pm)))))]
        else []))
  else [].

Definition rectLoop (g : Globals) (r : Rect) (pm : PixMap) (data : Z → Z)
    (ct : ColorTable) : list Store :=
  let box := clip g r in
  if decide (rleft box < rright box ∧ rtop box < rbottom box) then
    for_range (rtop box) (rbottom box) (λ y,
      for_range (rleft box) (rright box) (λ x,
        [mkStore y x
           (pixel32 (ctTable ct
              (data (tileCoord y (tileHeight pm) * tileStride pm
                     + tileCoord x (tileWidth pm)))))]))
  else [].

(** A pattern that passes every check of the renderers. *)
Definition renderable (m : Mac) (pp : Z) (pm : PixMap) (data : Z → Z)
    (ct : ColorTable) : Prop :=
  ∃ P, deref (pixpats m) pp = Some P ∧ patType P = 1 ∧
       deref (pixmaps m) (patMap P) = Some pm ∧
       deref (datas m) (patData P) = Some data ∧
       0 < tileWidth pm ∧ 0 < tileHeight pm ∧ pixelSize pm = 8 ∧
       deref (ctabs m) (pmTable pm) = Some ct.

(** A store performed by one of the renderers, for some target area. *)
Definition drawn (g : Globals) (m : Mac) (pp : Z) (s : Store) : Prop :=
  (∃ rgn, s ∈ (RenderPatternInRgn g rgn pp m).1) ∨
  (∃ r, s ∈ (RenderPatternInRect g r pp m).1).

(** The pattern's pixel map and pixel data are reached through different
    handles. *)
Definition separate (m : Mac) (pp : Z) : Prop :=
  ∀ P, deref (pixpats m) pp = Some P → patMap P ≠ patData P.

(** The machine after the locks of a renderer have been taken and the saved
    flags put back: when the pixel map and the pixel data are one handle,
    the flags saved for the pixel data are those of the block already
    locked, and they are put back last. *)
Definition settled (m : Mac) (pp : Z) : Mac :=
  match deref (pixpats m) pp with
  | Some P =>
      match deref (pixmaps m) (patMap P), deref (datas m) (patData P) with
      | Some _, Some _ =>
          if decide (patType P = 1 ∧ patMap P = patData P)
          then set_heap (HLock (patMap P) (heap m)) m
          else m
      | _, _ => m
      end
  | None => m
  end.

(** The guard in the words of the specification.  [area] is the bounding
    box of the target area (absent when the call has no area), [least] the
    minimum side (4 for a region, 2 for a rectangle). *)
Definition meetsAnyWindow (m : Mac) (box : Rect) : bool :=
  existsb (λ w, match deref (rgns m) (strucRgn w) with
                | Some s => RectInRgn box s
                | None => false
                end)
          (removelast (WindowList m)).

Definition shouldRepair (ready : bool) (m : Mac) (area : option Rect)
    (least : Z) : bool :=
  match area with
  | None => false
  | Some box =>
      ready &&
      bool_decide (thePort m = WMgrCPort m) &&
      bool_decide (least ≤ rright box - rleft box ≤ 250) &&
      bool_decide (least ≤ rbottom box - rtop box ≤ 250) &&
      bool_decide (MBarHeight m ≤ rtop box) &&
      negb (meetsAnyWindow m box)
  end.

(** The background pattern of the Window Manager port, NULL when there is
    no such port. *)
Definition wmgrBackPat (m : Mac) : Z :=
  if decide (WMgrCPort m = 0) then 0 else bkPixPat (cports m !!! WMgrCPort m).

(** ** A concrete machine

    A 20x20 screen at 32 bits per pixel, a 4x4 tile at 8 bits per pixel
    whose colour table maps index 0 to pure red, a 10x10 square region
    below a menu bar of height 4, drawn through the Window Manager port,
    with one document window far from the square and the desktop window
    at the end of the window list. *)
Module Demo.

Definition red16 : ColorSpec := mkColorSpec 0 (mkRGB 65535 0 0).
Definition mix16 : ColorSpec := mkColorSpec 1 (mkRGB 4660 22136 39612).
Definition demoTable : ColorTable :=
  mkColorTable (λ i, if decide (i = 0) then red16 else mix16).
Definition demoTile : Z → Z := λ off, if decide (off = 5) then 1 else 0.
Definition tileMap : PixMap := mkPixMap 0 (-32764) (mkRect 0 0 4 4) 8 30.
Definition flatMap : PixMap := mkPixMap 0 (-32764) (mkRect 0 4 4 4) 8 30.
Definition screenMap : PixMap :=
  mkPixMap 1000 (-32688) (mkRect 0 0 20 20) 32 0.
Definition screenMap8 : PixMap :=
  mkPixMap 1000 (-32748) (mkRect 0 0 20 20) 8 0.
Definition square : Region :=
  mkRegion (mkRect 5 5 15 15)
           (λ h v, bool_decide (5 ≤ h < 15 ∧ 5 ≤ v < 15)).
Definition corner : Region :=
  mkRegion (mkRect 5 5 15 15)
           (λ h v, bool_decide (5 ≤ h < 15 ∧ 5 ≤ v < 15 ∧ h + v < 20)).
Definition wide : Region :=
  mkRegion (mkRect 5 5 15 305)
           (λ h v, bool_decide (5 ≤ h < 305 ∧ 5 ≤ v < 15)).
Definition docWindow : Region :=
  mkRegion (mkRect 0 16 4 20)
           (λ h v, bool_decide (16 ≤ h < 20 ∧ 0 ≤ v < 4)).
Definition desktop : Region :=
  mkRegion (mkRect 0 0 20 20)
           (λ h v, bool_decide (0 ≤ h < 20 ∧ 0 ≤ v < 20)).

(** Blocks of the demonstration heap: each is read through one handle
    type, or two for the tile, and as nothing in particular through the
    others. *)
Definition blank : Contents :=
  mkContents (mkPixPat 0 0 0) (mkPixMap 0 0 (mkRect 0 0 0 0) 0 0) (λ _, 0)
             (mkColorTable (λ _, mkColorSpec 0 (mkRGB 0 0 0)))
             (mkRegion (mkRect 0 0 0 0) (λ _ _, false)) (mkGDevice 0).
Definition ofPixPat (P : PixPat) : Contents :=
  mkContents P (asPixMap blank) (asBytes blank) (asColorTable blank)
             (asRegion blank) (asGDevice blank).
Definition ofPixMap (pm : PixMap) (bytes : Z → Z) : Contents :=
  mkContents (asPixPat blank) pm bytes (asColorTable blank)
             (asRegion blank) (asGDevice blank).
Definition ofBytes (bytes : Z → Z) : Contents :=
  mkContents (asPixPat blank) (asPixMap blank) bytes (asColorTable blank)
             (asRegion blank) (asGDevice blank).
Definition ofColorTable (ct : ColorTable) : Contents :=
  mkContents (asPixPat blank) (asPixMap blank) (asBytes blank) ct
             (asRegion blank) (asGDevice blank).
Definition ofRegion (rgn : Region) : Contents :=
  mkContents (asPixPat blank) (asPixMap blank) (asBytes blank)
             (asColorTable blank) rgn (asGDevice blank).
Definition ofGDevice (dev : GDevice) : Contents :=
  mkContents (asPixPat blank) (asPixMap blank) (asBytes blank)
             (asColorTable blank) (asRegion blank) dev.

(** Pattern 10 has its pixel map in handle 20 and its pixel data in handle
    21; pattern 11 names handle 20 for both. *)
Definition machine (screen : PixMap) (tile : PixMap) (data : Z → Z) : Mac :=
  mkMac {[ 10 := mkBlock 0 (Some (ofPixPat (mkPixPat 1 20 21)));
           11 := mkBlock 0 (Some (ofPixPat (mkPixPat 1 20 20)));
           20 := mkBlock 64 (Some (ofPixMap tile data));
           21 := mkBlock 0 (Some (ofBytes data));
           30 := mkBlock 32 (Some (ofColorTable demoTable));
           40 := mkBlock 128 (Some (ofGDevice (mkGDevice 41)));
           41 := mkBlock 128 (Some (ofPixMap screen (λ _, 0)));
           50 := mkBlock 0 (Some (ofRegion square));
           51 := mkBlock 0 (Some (ofRegion corner));
           52 := mkBlock 0 (Some (ofRegion wide));
           60 := mkBlock 0 (Some (ofRegion docWindow));
           61 := mkBlock 0 (Some (ofRegion desktop)) ]}
        {[ 600 := mkCGrafPort 10 ]}
        40 600 600 4 [mkWindow 60; mkWindow 61] ∅.

Definition mac32 : Mac := machine screenMap tileMap demoTile.
Definition mac8 : Mac := machine screenMap8 tileMap demoTile.
Definition macFlat : Mac := machine screenMap flatMap demoTile.
Definition macRed : Mac := machine screenMap tileMap (λ _, 0).
Definition hugeMap : PixMap :=
  mkPixMap 0 (-32764) (mkRect 0 (-20000) 4 20000) 8 30.
Definition macHuge : Mac := machine screenMap hugeMap demoTile.

Definition cold : Globals := mkGlobals 0 0 0 0 0 0.
Definition warm : Globals := mkGlobals 0 1000 80 20 20 1.
Definition nested : Globals := mkGlobals 1 1000 80 20 20 1.

(** Originals that draw nothing. *)
Definition idleFillCRgn : Z → Z → Mac → Mac := λ _ _ m, m.
Definition idleEraseRect : option Rect → Mac → Mac := λ _ m, m.

End Demo.

(** ** Frame-buffer addresses and tile offsets *)

(** The byte address of the long that holds surface pixel [(x, y)]. *)
Definition pixelAddr (g : Globals) (x y : Z) : Z :=
  gScreenBase g + y * gScreenRowBytes g + 4 * x.

(** The offset into the pixel data at which the renderers read the index of
    surface pixel [(x, y)]. *)
Definition tileOffset (pm : PixMap) (x y : Z) : Z :=
  tileCoord y (tileHeight pm) * tileStride pm + tileCoord x (tileWidth pm).

(** The colour of the pattern at surface pixel [(x, y)]. *)
Definition paint (pm : PixMap) (data : Z → Z) (ct : ColorTable) (x y : Z) : Z :=
  pixel32 (ctTable ct (tilePixel pm data (y mod tileHeight pm)
                                         (x mod tileWidth pm))).

(** The cached row stride covers a row of 32-bit pixels. *)
Definition rowsFit (g : Globals) : Prop :=
  0 ≤ 4 * gScreenWidth g ≤ gScreenRowBytes g.

(** A ready cache holds a 14-bit stride and short dimensions. *)
Definition cacheInRange (g : Globals) : Prop :=
  gScreenReady g ≠ 0 →
  0 ≤ gScreenRowBytes g < 16384 ∧
  -32768 ≤ gScreenWidth g < 32768 ∧
  -32768 ≤ gScreenHeight g < 32768.

(** The ways in which a pattern fails the checks of the renderers. *)
Definition unsupported (m : Mac) (pp : Z) : Prop :=
  deref (pixpats m) pp = None ∨
  ∃ P, deref (pixpats m) pp = Some P ∧
    (patType P ≠ 1 ∨
     deref (pixmaps m) (patMap P) = None ∨
     deref (datas m) (patData P) = None ∨
     ∃ pm, deref (pixmaps m) (patMap P) = Some pm ∧
       (tileWidth pm ≤ 0 ∨ tileHeight pm ≤ 0 ∨ pixelSize pm ≠ 8 ∨
        deref (ctabs m) (pmTable pm) = None)).

(** ** Installation

    What [_start] sees of the system: the answer of
    [Gestalt(gestaltQuickdrawVersion, &qdVersion)], the tool trap table,
    the INIT's own resource ([Get1Resource('INIT', 128)], NULL when it is
    not found) with its block and its membership of a resource map, the two
    saved trap addresses ([gOldFillCRgn] and [gOldEraseRect], NULL before
    installation) and whether the runtime's globals have been released.
    Relocation, the constructors and the icon shown at startup do not touch
    any of these. *)
Record System := mkSystem {
  gestaltErr : Z;
  gestaltValue : Z;
  toolTraps : gmap Z Z;
  initRsrc : Z;
  codeBlocks : gmap Z (Block (Z → Z));
  attached : gset Z;
  savedFillCRgn : Z;
  savedEraseRect : Z;
  globalsFreed : bool
}.

Definition kFillCRgnTrap : Z := 43538.   (* 0xAA12 *)
Definition kEraseRectTrap : Z := 43171.  (* 0xA8A3 *)

Definition GetToolTrapAddress (trap : Z) (s : System) : Z :=
  toolTraps s !!! trap.

Definition SetToolTrapAddress (addr trap : Z) (s : System) : System :=
  mkSystem (gestaltErr s) (gestaltValue s) (<[trap := addr]> (toolTraps s))
           (initRsrc s) (codeBlocks s) (attached s)
           (savedFillCRgn s) (savedEraseRect s) (globalsFreed s).

Definition Retro68FreeGlobals (s : System) : System :=
  mkSystem (gestaltErr s) (gestaltValue s) (toolTraps s)
           (initRsrc s) (codeBlocks s) (attached s)
           (savedFillCRgn s) (savedEraseRect s) true.

Section Install.

(** The constant of Gestalt.h and the addresses of the two patches. *)
Variable gestalt32BitQD : Z.
Variable PatchedFillCRgnAddr PatchedEraseRectAddr : Z.

Definition _start (s : System) : System :=
  if decide (gestaltErr s ≠ 0) then Retro68FreeGlobals s
  else if decide (gestaltValue s < gestalt32BitQD) then Retro68FreeGlobals s
  else
    let old1 := GetToolTrapAddress kFillCRgnTrap s in
    let s1 := SetToolTrapAddress PatchedFillCRgnAddr kFillCRgnTrap s in
    let old2 := GetToolTrapAddress kEraseRectTrap s1 in
    let s2 := SetToolTrapAddress PatchedEraseRectAddr kEraseRectTrap s1 in
    let self := initRsrc s2 in
    let '(blocks, att) :=
      if decide (self ≠ 0)
      then (HLock self (codeBlocks s2), attached s2 ∖ {[self]})
      else (codeBlocks s2, attached s2) in
    mkSystem (gestaltErr s2) (gestaltValue s2) (toolTraps s2)
             (initRsrc s2) blocks att old1 old2 (globalsFreed s2).

End Install.

(** A system with QuickDraw 2.3 (Gestalt answers 0x230), the two traps at
    ROM addresses, and the INIT resource in handle 700. *)
Module DemoInstall.

Definition rom : gmap Z Z :=
  {[ 43538 := 8421376; 43171 := 8425472; 43170 := 8425400 ]}.

Definition fresh (err qd : Z) : System :=
  mkSystem err qd rom 700 {[ 700 := mkBlock 32 (Some (λ _, 0)) ]}
           {[ 700 ]} 0 0 false.

End DemoInstall.

(** * Properties *)

(** ** Arithmetic *)

Lemma s16_range z : -32768 ≤ s16 z < 32768.
Proof. unfold s16. pose proof (Z.mod_pos_bound (z + 32768) 65536). lia. Qed.

Lemma s16_id z : -32768 ≤ z < 32768 → s16 z = z.
Proof. intros Hz. unfold s16. rewrite Z.mod_small; lia. Qed.

(** With a positive tile side, the remainder fix-up is the mathematical
    modulo. *)
Lemma tileCoord_mod c size : 0 < size → tileCoord c size = c mod size.
Proof.
  intros Hsize. unfold tileCoord.
  pose proof (Z.quot_rem' c size) as Hqr.
  destruct (Z_lt_le_dec c 0) as [Hneg | Hpos].
  - pose proof (Z.rem_bound_pos_neg c size Hsize ltac:(lia)) as Hb.
    case_decide as Hlt.
    + apply (Z.mod_unique_pos c size (Z.quot c size - 1)); lia.
    + assert (Z.rem c size = 0) as Hz by lia.
      apply (Z.mod_unique_pos c size (Z.quot c size)); lia.
  - pose proof (Z.rem_bound_pos c size Hpos Hsize) as Hb.
    case_decide as Hlt; [lia |].
    apply (Z.mod_unique_pos c size (Z.quot c size)); lia.
Qed.

Lemma tileStride_low_bits pm : tileStride pm = rowBytes pm mod 2 ^ 14.
Proof.
  unfold tileStride. change 16383 with (Z.ones 14).
  apply Z.land_ones. lia.
Qed.

(** ** Handles *)

Section Handles.
Context {A : Type}.
Implicit Types (tbl : gmap Z (Block A)) (h : Z).

Lemma deref_Some_lookup tbl h x :
  deref tbl h = Some x → ∃ b, tbl !! h = Some b ∧ hPtr b = Some x.
Proof.
  unfold deref. case_decide; [done |].
  rewrite lookup_total_alt. destruct (tbl !! h) as [b |] eqn:Hb; simpl.
  - intros Hx. by exists b.
  - done.
Qed.

Lemma HGetState_HSetState tbl h flags h' :
  HGetState (HSetState h flags tbl) h' =
  if decide (h = h') then flags else HGetState tbl h'.
Proof.
  unfold HGetState, HSetState. rewrite lookup_total_insert.
  by case_decide.
Qed.

Lemma deref_HSetState tbl h flags h' :
  deref (HSetState h flags tbl) h' = deref tbl h'.
Proof.
  unfold deref, HSetState. case_decide; [done |].
  rewrite lookup_total_insert. case_decide; by subst.
Qed.

Lemma deref_HLock tbl h h' : deref (HLock h tbl) h' = deref tbl h'.
Proof. apply deref_HSetState. Qed.

Lemma HSetState_HSetState tbl h f1 f2 :
  HSetState h f2 (HSetState h f1 tbl) = HSetState h f2 tbl.
Proof.
  unfold HSetState. rewrite lookup_total_insert_eq. simpl.
  apply insert_insert_eq.
Qed.

Lemma HSetState_same tbl h x :
  deref tbl h = Some x → HSetState h (HGetState tbl h) tbl = tbl.
Proof.
  intros (b & Hb & _)%deref_Some_lookup.
  unfold HSetState, HGetState. rewrite (lookup_total_correct _ _ _ Hb).
  apply insert_id. rewrite Hb. by destruct b.
Qed.

(** Locking one handle and then restoring its saved flags leaves the heap
    as it was. *)
Lemma HLock_restore tbl h x :
  deref tbl h = Some x → HSetState h (HGetState tbl h) (HLock h tbl) = tbl.
Proof.
  intros Hx. unfold HLock. rewrite HSetState_HSetState.
  by eapply HSetState_same.
Qed.

(** While the lock is held the block is locked. *)
Lemma HLock_locked tbl h : Z.testbit (HGetState (HLock h tbl) h) 7 = true.
Proof.
  unfold HLock. rewrite HGetState_HSetState. case_decide; [| done].
  rewrite Z.lor_spec. apply orb_true_r.
Qed.

Lemma lookup_HSetState tbl h flags k :
  HSetState h flags tbl !! k =
  if decide (h = k) then Some (mkBlock flags (hPtr (tbl !!! h)))
  else tbl !! k.
Proof. unfold HSetState. rewrite lookup_insert. by case_decide. Qed.

Lemma hPtr_HSetState tbl h flags k :
  hPtr (HSetState h flags tbl !!! k) = hPtr (tbl !!! k).
Proof.
  unfold HSetState. rewrite lookup_total_insert. case_decide; by subst.
Qed.

Lemma block_present tbl h x :
  deref tbl h = Some x →
  tbl !! h = Some (mkBlock (HGetState tbl h) (hPtr (tbl !!! h))).
Proof.
  intros (b & Hb & _)%deref_Some_lookup.
  unfold HGetState. rewrite (lookup_total_correct _ _ _ Hb), Hb.
  by destruct b.
Qed.

(** Two locks, then the two saved flags bytes put back in the order of the
    source: the first handle's, then the second's. *)
Lemma restore_two tbl a b x y :
  deref tbl a = Some x → deref tbl b = Some y →
  HSetState b (HGetState (HLock a tbl) b)
    (HSetState a (HGetState tbl a) (HLock b (HLock a tbl)))
  = if decide (a = b) then HLock a tbl else tbl.
Proof.
  intros Ha%block_present Hb%block_present.
  apply map_eq. intros k. unfold HLock.
  case_decide as Hab; unfold HLock;
    rewrite ?lookup_HSetState, ?hPtr_HSetState, ?HGetState_HSetState;
    repeat case_decide; subst; try done; congruence.
Qed.

Lemma restore_three (tbl : gmap Z (Block A)) a b c x y z :
  deref tbl a = Some x → deref tbl b = Some y → deref tbl c = Some z →
  HSetState b (HGetState (HLock a tbl) b)
    (HSetState a (HGetState tbl a)
       (HSetState c (HGetState (HLock b (HLock a tbl)) c)
          (HLock c (HLock b (HLock a tbl)))))
  = if decide (a = b) then HLock a tbl else tbl.
Proof.
  intros Ha%block_present Hb%block_present Hc%block_present.
  apply map_eq. intros k. unfold HLock.
  case_decide as Hab; unfold HLock;
    rewrite ?lookup_HSetState, ?hPtr_HSetState, ?HGetState_HSetState;
    repeat case_decide; subst; try done; congruence.
Qed.

End Handles.

(** ** The heap through a handle type *)

Lemma deref_viewOf {A} (f : Contents → A) hp h :
  deref (viewOf f hp) h = f <$> deref hp h.
Proof.
  unfold deref, viewOf. case_decide; [done |].
  rewrite !lookup_total_alt, lookup_fmap. by destruct (hp !! h).
Qed.

Lemma HGetState_viewOf {A} (f : Contents → A) hp h :
  HGetState (viewOf f hp) h = HGetState hp h.
Proof.
  unfold HGetState, viewOf.
  rewrite !lookup_total_alt, lookup_fmap. by destruct (hp !! h).
Qed.

Lemma deref_viewOf_HSetState {A} (f : Contents → A) hp h flags k :
  deref (viewOf f (HSetState h flags hp)) k = deref (viewOf f hp) k.
Proof. by rewrite !deref_viewOf, deref_HSetState. Qed.

Lemma deref_viewOf_HLock {A} (f : Contents → A) hp h k :
  deref (viewOf f (HLock h hp)) k = deref (viewOf f hp) k.
Proof. apply deref_viewOf_HSetState. Qed.

Lemma deref_viewOf_Some {A} (f : Contents → A) hp h x :
  deref (viewOf f hp) h = Some x → ∃ c, deref hp h = Some c ∧ f c = x.
Proof. rewrite deref_viewOf. intros (c & Hc & ->)%fmap_Some. eauto. Qed.

Lemma HLock_HLock {A} (tbl : gmap Z (Block A)) h :
  HLock h (HLock h tbl) = HLock h tbl.
Proof.
  unfold HLock. rewrite HGetState_HSetState. case_decide; [| done].
  rewrite HSetState_HSetState. by rewrite <- Z.lor_assoc.
Qed.

(** ** The renderers, case by case *)

Lemma set_ram_same m : set_ram (ram m) m = m.
Proof. by destruct m. Qed.

Lemma set_heap_same m : set_heap (heap m) m = m.
Proof. by destruct m. Qed.

Lemma ctabs_set_heap t m : ctabs (set_heap t m) = viewOf asColorTable t.
Proof. done. Qed.

Lemma heap_set_heap t m : heap (set_heap t m) = t.
Proof. done. Qed.

(** What [settled] is once the two locks have been taken. *)
Lemma settled_locked m pp P pm data :
  deref (pixpats m) pp = Some P → patType P = 1 →
  deref (pixmaps m) (patMap P) = Some pm →
  deref (datas m) (patData P) = Some data →
  settled m pp =
  set_heap (if decide (patMap P = patData P)
            then HLock (patMap P) (heap m) else heap m) m.
Proof.
  intros HP Htype Hpm Hd. unfold settled. rewrite HP, Hpm, Hd.
  repeat case_decide; try tauto; by rewrite ?set_heap_same.
Qed.

Lemma settled_other_type m pp P :
  deref (pixpats m) pp = Some P → patType P ≠ 1 → settled m pp = m.
Proof.
  intros HP Htype. unfold settled. rewrite HP.
  destruct (deref (pixmaps m) (patMap P)); [| done].
  destruct (deref (datas m) (patData P)); [| done].
  case_decide as Hsame; [| done]. by destruct Hsame.
Qed.

Lemma settled_separate m pp : separate m pp → settled m pp = m.
Proof.
  intros Hsep. unfold settled.
  destruct (deref (pixpats m) pp) as [P |] eqn:HP; [| done].
  destruct (deref (pixmaps m) (patMap P)); [| done].
  destruct (deref (datas m) (patData P)); [| done].
  case_decide as Hsame; [| done]. destruct (Hsep P HP). apply Hsame.
Qed.

Lemma RenderPatternInRgn_cases g rgn pp m :
  RenderPatternInRgn g rgn pp m = ([], settled m pp) ∨
  ∃ pm data ct, renderable m pp pm data ct ∧
    RenderPatternInRgn g rgn pp m =
    (rgnLoop g rgn pm data ct,
     set_ram (pokes g (rgnLoop g rgn pm data ct) (ram m)) (settled m pp)).
Proof.
  unfold RenderPatternInRgn.
  destruct (deref (pixpats m) pp) as [P |] eqn:HP;
    [| left; unfold settled; by rewrite HP].
  case_decide as Htype.
  { left. by rewrite (settled_other_type m pp P HP Htype). }
  destruct (deref (pixmaps m) (patMap P)) as [pm |] eqn:Hpm;
    [| left; unfold settled; by rewrite HP, Hpm].
  destruct (deref (datas m) (patData P)) as [data |] eqn:Hdata;
    [| left; unfold settled; by rewrite HP, Hpm, Hdata].
  assert (patType P = 1) as Htype1 by lia.
  rewrite (settled_locked m pp P pm data HP Htype1 Hpm Hdata).
  destruct (deref_viewOf_Some _ _ _ _ Hpm) as (ca & Ha & _).
  destruct (deref_viewOf_Some _ _ _ _ Hdata) as (cb & Hb & _).
  case_decide as Hdims.
  { left. simpl. by rewrite (restore_two _ _ _ _ _ Ha Hb). }
  rewrite ctabs_set_heap, !heap_set_heap, !deref_viewOf_HLock.
  fold (ctabs m).
  destruct (deref (ctabs m) (pmTable pm)) as [ct |] eqn:Hct.
  - right. exists pm, data, ct. split.
    { exists P. unfold tileWidth, tileHeight. repeat split; try done; lia. }
    destruct (deref_viewOf_Some _ _ _ _ Hct) as (cc & Hc & _).
    simpl. by rewrite (restore_three _ _ _ _ _ _ _ Ha Hb Hc).
  - left. simpl. by rewrite (restore_two _ _ _ _ _ Ha Hb).
Qed.

Lemma RenderPatternInRect_cases g r pp m :
  RenderPatternInRect g r pp m = ([], settled m pp) ∨
  ∃ pm data ct, renderable m pp pm data ct ∧
    RenderPatternInRect g r pp m =
    (rectLoop g r pm data ct,
     set_ram (pokes g (rectLoop g r pm data ct) (ram m)) (settled m pp)).
Proof.
  unfold RenderPatternInRect.
  destruct (deref (pixpats m) pp) as [P |] eqn:HP;
    [| left; unfold settled; by rewrite HP].
  case_decide as Htype.
  { left. by rewrite (settled_other_type m pp P HP Htype). }
  destruct (deref (pixmaps m) (patMap P)) as [pm |] eqn:Hpm;
    [| left; unfold settled; by rewrite HP, Hpm].
  destruct (deref (datas m) (patData P)) as [data |] eqn:Hdata;
    [| left; unfold settled; by rewrite HP, Hpm, Hdata].
  assert (patType P = 1) as Htype1 by lia.
  rewrite (settled_locked m pp P pm data HP Htype1 Hpm Hdata).
  destruct (deref_viewOf_Some _ _ _ _ Hpm) as (ca & Ha & _).
  destruct (deref_viewOf_Some _ _ _ _ Hdata) as (cb & Hb & _).
  case_decide as Hdims.
  { left. simpl. by rewrite (restore_two _ _ _ _ _ Ha Hb). }
  rewrite ctabs_set_heap, !heap_set_heap, !deref_viewOf_HLock.
  fold (ctabs m).
  destruct (deref (ctabs m) (pmTable pm)) as [ct |] eqn:Hct.
  - right. exists pm, data, ct. split.
    { exists P. unfold tileWidth, tileHeight. repeat split; try done; lia. }
    destruct (deref_viewOf_Some _ _ _ _ Hct) as (cc & Hc & _).
    simpl. by rewrite (restore_three _ _ _ _ _ _ _ Ha Hb Hc).
  - left. simpl. by rewrite (restore_two _ _ _ _ _ Ha Hb).
Qed.

(** A pattern determines its validated parts. *)
Lemma renderable_unique m pp pm data ct pm' data' ct' :
  renderable m pp pm data ct → renderable m pp pm' data' ct' →
  pm' = pm ∧ data' = data ∧ ct' = ct.
Proof.
  intros (P & HP & _ & Hpm & Hd & _ & _ & _ & Hct)
         (P' & HP' & _ & Hpm' & Hd' & _ & _ & _ & Hct').
  assert (P' = P) as -> by congruence.
  assert (pm' = pm) as -> by congruence.
  split; [done |]. split; congruence.
Qed.

(** What a renderer does to a renderable pattern. *)
Lemma RenderPatternInRgn_renderable g rgn pp m pm data ct :
  renderable m pp pm data ct →
  RenderPatternInRgn g rgn pp m =
  (rgnLoop g rgn pm data ct,
   set_ram (pokes g (rgnLoop g rgn pm data ct) (ram m)) (settled m pp)).
Proof.
  intros (P & HP & Htype & Hpm & Hd & HW & HH & Hdepth & Hct).
  rewrite (settled_locked m pp P pm data HP Htype Hpm Hd).
  destruct (deref_viewOf_Some _ _ _ _ Hpm) as (ca & Ha & _).
  destruct (deref_viewOf_Some _ _ _ _ Hd) as (cb & Hb & _).
  destruct (deref_viewOf_Some _ _ _ _ Hct) as (cc & Hc & _).
  unfold RenderPatternInRgn. rewrite HP.
  case_decide; [done |]. rewrite Hpm, Hd.
  fold (tileWidth pm) (tileHeight pm).
  case_decide as Hdims; [lia |].
  rewrite ctabs_set_heap, !heap_set_heap, !deref_viewOf_HLock.
  fold (ctabs m). rewrite Hct. simpl.
  by rewrite (restore_three _ _ _ _ _ _ _ Ha Hb Hc).
Qed.

Lemma RenderPatternInRect_renderable g r pp m pm data ct :
  renderable m pp pm data ct →
  RenderPatternInRect g r pp m =
  (rectLoop g r pm data ct,
   set_ram (pokes g (rectLoop g r pm data ct) (ram m)) (settled m pp)).
Proof.
  intros (P & HP & Htype & Hpm & Hd & HW & HH & Hdepth & Hct).
  rewrite (settled_locked m pp P pm data HP Htype Hpm Hd).
  destruct (deref_viewOf_Some _ _ _ _ Hpm) as (ca & Ha & _).
  destruct (deref_viewOf_Some _ _ _ _ Hd) as (cb & Hb & _).
  destruct (deref_viewOf_Some _ _ _ _ Hct) as (cc & Hc & _).
  unfold RenderPatternInRect. rewrite HP.
  case_decide; [done |]. rewrite Hpm, Hd.
  fold (tileWidth pm) (tileHeight pm).
  case_decide as Hdims; [lia |].
  rewrite ctabs_set_heap, !heap_set_heap, !deref_viewOf_HLock.
  fold (ctabs m). rewrite Hct. simpl.
  by rewrite (restore_three _ _ _ _ _ _ _ Ha Hb Hc).
Qed.

(** ** The pixel loops *)

Lemma elem_of_for_range lo hi body s :
  s ∈ for_range lo hi body ↔ ∃ i, lo ≤ i < hi ∧ s ∈ body i.
Proof.
  unfold for_range. rewrite list_elem_of_bind.
  setoid_rewrite elem_of_seqZ.
  split; intros (i & H1 & H2); exists i; split; try done; lia.
Qed.

Lemma elem_of_rgnLoop g rgn pm data ct s :
  s ∈ rgnLoop g rgn pm data ct ↔
  inRect (clip g (rgnBBox rgn)) (scol s) (srow s) ∧
  PtInRgn (scol s) (srow s) rgn = true ∧
  sval s = pixel32 (ctTable ct
             (data (tileCoord (srow s) (tileHeight pm) * tileStride pm
                    + tileCoord (scol s) (tileWidth pm)))).
Proof.
  unfold rgnLoop, inRect. case_decide as Hbox.
  - rewrite elem_of_for_range. setoid_rewrite elem_of_for_range. split.
    + intros (y & Hy & x & Hx & Hs).
      destruct (PtInRgn x y rgn) eqn:Hin; [| by apply elem_of_nil in Hs].
      apply list_elem_of_singleton in Hs. subst s. simpl. done.
    + intros ((Hx & Hy) & Hin & Hv).
      exists (srow s). split; [done |]. exists (scol s). split; [done |].
      rewrite Hin. apply list_elem_of_singleton. destruct s; simpl in *.
      by subst.
  - split; [by intros ?%elem_of_nil |]. intros ((Hx & Hy) & _). lia.
Qed.

Lemma elem_of_rectLoop g r pm data ct s :
  s ∈ rectLoop g r pm data ct ↔
  inRect (clip g r) (scol s) (srow s) ∧
  sval s = pixel32 (ctTable ct
             (data (tileCoord (srow s) (tileHeight pm) * tileStride pm
                    + tileCoord (scol s) (tileWidth pm)))).
Proof.
  unfold rectLoop, inRect. case_decide as Hbox.
  - rewrite elem_of_for_range. setoid_rewrite elem_of_for_range. split.
    + intros (y & Hy & x & Hx & Hs).
      apply list_elem_of_singleton in Hs. subst s. simpl. done.
    + intros ((Hx & Hy) & Hv).
      exists (srow s). split; [done |]. exists (scol s). split; [done |].
      apply list_elem_of_singleton. destruct s; simpl in *.
      by subst.
  - split; [by intros ?%elem_of_nil |]. intros ((Hx & Hy) & _). lia.
Qed.

(** The clipped rectangle is the target rectangle cut to the surface. *)
Lemma clip_max_min g r :
  clip g r = mkRect (Z.max (rtop r) 0) (Z.max (rleft r) 0)
                    (Z.min (rbottom r) (gScreenHeight g))
                    (Z.min (rright r) (gScreenWidth g)).
Proof.
  unfold clip. repeat case_decide; f_equal; lia.
Qed.

Lemma inRect_clip g r x y :
  inRect (clip g r) x y ↔ inRect r x y ∧ inSurface g x y.
Proof.
  rewrite clip_max_min. unfold inRect, inSurface. simpl. lia.
Qed.

(** ** The pixel conversion *)

Lemma lor_shifted a b n :
  0 ≤ n → 0 ≤ b < 2 ^ n → Z.lor (a * 2 ^ n) b = a * 2 ^ n + b.
Proof.
  intros Hn Hb. symmetry. apply Z.add_nocarry_lor.
  apply Z.bits_inj'. intros i Hi.
  rewrite Z.land_spec, Z.bits_0.
  destruct (Z_lt_le_dec i n) as [Hlow | Hhigh].
  - by rewrite Z.mul_pow2_bits_low.
  - rewrite <- (Z.mod_small b (2 ^ n)) by done.
    rewrite Z.mod_pow2_bits_high by lia. apply andb_false_r.
Qed.

Lemma high_byte_range c : channel16 c → 0 ≤ c / 256 < 256.
Proof.
  unfold channel16. intros Hc.
  split; [apply Z.div_pos; lia | apply Z.div_lt_upper_bound; lia].
Qed.

Lemma pixel32_sum cs :
  wideColor (rgb cs) →
  pixel32 cs = red (rgb cs) / 256 * 65536 + green (rgb cs) / 256 * 256
               + blue (rgb cs) / 256.
Proof.
  intros (Hr%high_byte_range & Hg%high_byte_range & Hb%high_byte_range).
  unfold pixel32.
  rewrite !Z.shiftr_div_pow2, !Z.shiftl_mul_pow2 by lia.
  change (2 ^ 8) with 256 in *.
  set (r := red (rgb cs) / 256) in *. set (gg := green (rgb cs) / 256) in *.
  set (b := blue (rgb cs) / 256) in *. clearbody r gg b.
  rewrite (lor_shifted r (gg * 256) 16) by lia.
  replace (r * 2 ^ 16 + gg * 256) with ((r * 256 + gg) * 2 ^ 8) by lia.
  rewrite (lor_shifted (r * 256 + gg) b 8) by lia.
  lia.
Qed.

Lemma pixel32_bits cs :
  wideColor (rgb cs) →
  Z.shiftr (pixel32 cs) 24 = 0 ∧
  Z.land (Z.shiftr (pixel32 cs) 16) 255 = red (rgb cs) / 256 ∧
  Z.land (Z.shiftr (pixel32 cs) 8) 255 = green (rgb cs) / 256 ∧
  Z.land (pixel32 cs) 255 = blue (rgb cs) / 256.
Proof.
  intros Hc. rewrite (pixel32_sum cs Hc).
  destruct Hc as (Hr%high_byte_range & Hg%high_byte_range & Hb%high_byte_range).
  set (r := red (rgb cs) / 256) in *. set (gg := green (rgb cs) / 256) in *.
  set (b := blue (rgb cs) / 256) in *. clearbody r gg b.
  change 255 with (Z.ones 8). rewrite !Z.land_ones by lia.
  rewrite !Z.shiftr_div_pow2 by lia.
  change (2 ^ 8) with 256. change (2 ^ 16) with 65536.
  change (2 ^ 24) with 16777216.
  assert ((r * 65536 + gg * 256 + b) / 65536 = r) as ->
    by (symmetry; apply (Z.div_unique _ _ _ (gg * 256 + b)); lia).
  assert ((r * 65536 + gg * 256 + b) / 256 = r * 256 + gg) as ->
    by (symmetry; apply (Z.div_unique _ _ _ b); lia).
  repeat split.
  - apply Z.div_small. lia.
  - apply Z.mod_small. lia.
  - symmetry. apply (Z.mod_unique _ _ r); lia.
  - symmetry. apply (Z.mod_unique _ _ (r * 256 + gg)); lia.
Qed.

(** ** Stores of a renderable pattern *)

Lemma drawn_store g m pp pm data ct s :
  renderable m pp pm data ct → drawn g m pp s →
  inSurface g (scol s) (srow s) ∧
  sval s = pixel32 (ctTable ct
             (tilePixel pm data (srow s mod tileHeight pm)
                                (scol s mod tileWidth pm))).
Proof.
  intros Hok Hs. pose proof Hok as (_ & _ & _ & _ & _ & HW & HH & _).
  unfold tilePixel. rewrite <- (tileCoord_mod _ _ HH), <- (tileCoord_mod _ _ HW).
  destruct Hs as [[rgn Hs] | [r Hs]].
  - rewrite (RenderPatternInRgn_renderable _ _ _ _ _ _ _ Hok) in Hs.
    apply elem_of_rgnLoop in Hs as (Hbox%inRect_clip & _ & Hv). tauto.
  - rewrite (RenderPatternInRect_renderable _ _ _ _ _ _ _ Hok) in Hs.
    apply elem_of_rectLoop in Hs as (Hbox%inRect_clip & Hv). tauto.
Qed.

Lemma demo_renderable :
  renderable Demo.mac32 10 Demo.tileMap Demo.demoTile Demo.demoTable.
Proof. exists (mkPixPat 1 20 21). by vm_compute. Qed.

Lemma demo_drawn : drawn Demo.warm Demo.mac32 10 (mkStore 5 5 1201818).
Proof.
  left. exists Demo.square.
  rewrite (RenderPatternInRgn_renderable _ _ _ _ _ _ _ demo_renderable).
  apply elem_of_rgnLoop. by vm_compute.
Qed.

(** C1: for a tile of positive width W and height H, every store of either
    renderer at surface coordinate (x, y) carries the colour of tile pixel
    [(y mod H, x mod W)], with the mathematical (non-negative) modulo.  The
    tile pixel depends on (x, y) alone: two stores at the same coordinate,
    made for whatever target areas, carry the same value. *)
Theorem toroidal_tiling g m pp pm data ct s :
  renderable m pp pm data ct → drawn g m pp s →
  0 < tileWidth pm ∧ 0 < tileHeight pm ∧
  0 ≤ srow s mod tileHeight pm < tileHeight pm ∧
  0 ≤ scol s mod tileWidth pm < tileWidth pm ∧
  sval s = pixel32 (ctTable ct
             (tilePixel pm data (srow s mod tileHeight pm)
                                (scol s mod tileWidth pm))) ∧
  (∀ s', drawn g m pp s' → scol s' = scol s → srow s' = srow s →
         sval s' = sval s).
Proof.
  intros Hok Hs. pose proof Hok as (_ & _ & _ & _ & _ & HW & HH & _).
  destruct (drawn_store g m pp pm data ct s Hok Hs) as [_ Hv].
  split; [done |]. split; [done |].
  split; [by apply Z.mod_pos_bound |]. split; [by apply Z.mod_pos_bound |].
  split; [done |].
  intros s' Hs' Hcol Hrow.
  destruct (drawn_store g m pp pm data ct s' Hok Hs') as [_ Hv'].
  by rewrite Hv, Hv', Hcol, Hrow.
Qed.

Lemma toroidal_tiling_witness :
  renderable Demo.mac32 10 Demo.tileMap Demo.demoTile Demo.demoTable ∧
  drawn Demo.warm Demo.mac32 10 (mkStore 5 5 1201818) ∧
  1201818 = pixel32 (ctTable Demo.demoTable
              (tilePixel Demo.tileMap Demo.demoTile
                 (5 mod tileHeight Demo.tileMap) (5 mod tileWidth Demo.tileMap))).
Proof.
  split; [apply demo_renderable |]. split; [apply demo_drawn |].
  exact (proj1 (proj2 (proj2 (proj2 (proj2
           (toroidal_tiling Demo.warm Demo.mac32 10 Demo.tileMap Demo.demoTile
              Demo.demoTable (mkStore 5 5 1201818)
              demo_renderable demo_drawn)))))).
Defined.

Lemma demo_wide i : wideColor (rgb (ctTable Demo.demoTable i)).
Proof.
  unfold wideColor, channel16. simpl. case_decide; simpl; lia.
Qed.

(** C2: the 32-bit value stored for a looked-up palette entry has nothing
    above bit 23 and carries the high-order byte of the entry's red channel
    in bits 23-16, of the green channel in bits 15-8 and of the blue
    channel in bits 7-0. *)
Theorem pixel_packs_high_bytes g m pp pm data ct s :
  renderable m pp pm data ct →
  (∀ i, wideColor (rgb (ctTable ct i))) →
  drawn g m pp s →
  let entry := ctTable ct (tilePixel pm data (srow s mod tileHeight pm)
                                             (scol s mod tileWidth pm)) in
  sval s = pixel32 entry ∧
  Z.shiftr (sval s) 24 = 0 ∧
  Z.land (Z.shiftr (sval s) 16) 255 = red (rgb entry) / 256 ∧
  Z.land (Z.shiftr (sval s) 8) 255 = green (rgb entry) / 256 ∧
  Z.land (sval s) 255 = blue (rgb entry) / 256.
Proof.
  intros Hok Hwide Hs entry.
  destruct (drawn_store g m pp pm data ct s Hok Hs) as [_ Hv].
  fold entry in Hv. rewrite Hv. split; [done |].
  apply pixel32_bits, Hwide.
Qed.

Lemma pixel_packs_high_bytes_witness :
  renderable Demo.mac32 10 Demo.tileMap Demo.demoTile Demo.demoTable ∧
  (∀ i, wideColor (rgb (ctTable Demo.demoTable i))) ∧
  drawn Demo.warm Demo.mac32 10 (mkStore 5 5 1201818) ∧
  Z.shiftr 1201818 24 = 0 ∧
  Z.land (Z.shiftr 1201818 16) 255 = 4660 / 256 ∧
  Z.land (Z.shiftr 1201818 8) 255 = 22136 / 256 ∧
  Z.land 1201818 255 = 39612 / 256.
Proof.
  split; [apply demo_renderable |]. split; [apply demo_wide |].
  split; [apply demo_drawn |].
  apply (pixel_packs_high_bytes Demo.warm Demo.mac32 10 Demo.tileMap
           Demo.demoTile Demo.demoTable (mkStore 5 5 1201818)
           demo_renderable demo_wide demo_drawn).
Defined.

(** ** Machine state left by the renderers *)

Lemma ram_settled m pp : ram (settled m pp) = ram m.
Proof. unfold settled. by repeat case_match. Qed.

Lemma RenderPatternInRgn_state g rgn pp m :
  (RenderPatternInRgn g rgn pp m).2 =
  set_ram (pokes g (RenderPatternInRgn g rgn pp m).1 (ram m)) (settled m pp).
Proof.
  destruct (RenderPatternInRgn_cases g rgn pp m) as [-> | (? & ? & ? & _ & ->)];
    simpl; [by rewrite <- (ram_settled m pp), set_ram_same | done].
Qed.

Lemma RenderPatternInRect_state g r pp m :
  (RenderPatternInRect g r pp m).2 =
  set_ram (pokes g (RenderPatternInRect g r pp m).1 (ram m)) (settled m pp).
Proof.
  destruct (RenderPatternInRect_cases g r pp m) as [-> | (? & ? & ? & _ & ->)];
    simpl; [by rewrite <- (ram_settled m pp), set_ram_same | done].
Qed.

Lemma demo_separate : separate Demo.mac32 10.
Proof. intros P HP. vm_compute in HP. by injection HP as <-. Qed.

(** C3: the code at an input on which it does not restore the lock state.
    The renderers save the flags of the pixel-data handle after they have
    locked the pixel-map handle, and they put the saved flags back in the
    order pixel map, pixel data, not in the reverse order of the locks.
    Pattern 11 names handle 20 both as its pixel map and as its pixel
    data: the flags saved for the pixel data are those of the block already
    locked, and they are put back last.  The block is unlocked before the
    call, flags 64, and locked after it, flags 192: in region form and in
    rectangle form on the path that draws, and on the early return that
    follows the tile check (the flat tile of [Demo.macFlat]). *)
Theorem shared_handle_returns_locked :
  deref (pixpats Demo.mac32) 11 = Some (mkPixPat 1 20 20) ∧
  HGetState (heap Demo.mac32) 20 = 64 ∧
  HGetState
    (heap (RenderPatternInRgn Demo.warm Demo.square 11 Demo.mac32).2) 20
  = 192 ∧
  HGetState
    (heap (RenderPatternInRect Demo.warm (mkRect 5 5 15 15) 11
             Demo.mac32).2) 20
  = 192 ∧
  HGetState (heap Demo.macFlat) 20 = 64 ∧
  HGetState
    (heap (RenderPatternInRgn Demo.warm Demo.square 11 Demo.macFlat).2) 20
  = 192 ∧
  HGetState
    (heap (RenderPatternInRect Demo.warm (mkRect 5 5 15 15) 11
             Demo.macFlat).2) 20
  = 192.
Proof. repeat split; by vm_compute. Qed.

(** X22: when the pattern's pixel map and pixel data are reached through
    different handles, then after either renderer has returned, by whatever
    path, early returns after the locks included, the flags byte (lock and
    purge bits) of every handle is the one it had before the call; the
    colour-table handle may be either of the other two. *)
Theorem lock_state_restored g pp m h :
  separate m pp →
  (∀ rgn,
     HGetState (heap (RenderPatternInRgn g rgn pp m).2) h
     = HGetState (heap m) h) ∧
  (∀ r,
     HGetState (heap (RenderPatternInRect g r pp m).2) h
     = HGetState (heap m) h).
Proof.
  intros Hsep%settled_separate. split.
  - intros rgn. by rewrite RenderPatternInRgn_state, Hsep.
  - intros r. by rewrite RenderPatternInRect_state, Hsep.
Qed.

Lemma lock_state_restored_witness :
  separate Demo.mac32 10 ∧
  HGetState (heap (RenderPatternInRgn Demo.warm Demo.square 10
                     Demo.mac32).2) 20
  = HGetState (heap Demo.mac32) 20 ∧
  HGetState (heap (RenderPatternInRect Demo.warm (mkRect 5 5 15 15) 10
                     Demo.macFlat).2) 20
  = HGetState (heap Demo.macFlat) 20.
Proof.
  split; [apply demo_separate |]. split.
  - exact (proj1 (lock_state_restored Demo.warm 10 Demo.mac32 20
                    demo_separate) Demo.square).
  - apply (proj2 (lock_state_restored Demo.warm 10 Demo.macFlat 20
                    demo_separate)).
Defined.

(** ** Region form against rectangle form *)

Lemma rectLoop_covers g r pm data ct x y :
  inRect (clip g r) x y → written (rectLoop g r pm data ct) x y.
Proof.
  intros Hbox.
  exists (mkStore y x (pixel32 (ctTable ct
            (data (tileCoord y (tileHeight pm) * tileStride pm
                   + tileCoord x (tileWidth pm)))))).
  split; [| done]. by apply elem_of_rectLoop.
Qed.

Lemma rgnLoop_covers g rgn pm data ct x y :
  inRect (clip g (rgnBBox rgn)) x y → PtInRgn x y rgn = true →
  written (rgnLoop g rgn pm data ct) x y.
Proof.
  intros Hbox Hin.
  exists (mkStore y x (pixel32 (ctTable ct
            (data (tileCoord y (tileHeight pm) * tileStride pm
                   + tileCoord x (tileWidth pm)))))).
  split; [| done]. by apply elem_of_rgnLoop.
Qed.

Lemma written_rect g r pp m x y :
  written (RenderPatternInRect g r pp m).1 x y ↔
  (∃ pm data ct, renderable m pp pm data ct) ∧ inRect (clip g r) x y.
Proof.
  split.
  - destruct (RenderPatternInRect_cases g r pp m)
      as [-> | (pm & data & ct & Hok & ->)]; simpl.
    + intros (s & Hs & _). by apply elem_of_nil in Hs.
    + intros (s & (Hbox & _)%elem_of_rectLoop & <- & <-). eauto.
  - intros [(pm & data & ct & Hok) Hbox].
    rewrite (RenderPatternInRect_renderable _ _ _ _ _ _ _ Hok). simpl.
    by apply rectLoop_covers.
Qed.

Lemma written_rgn g rgn pp m x y :
  written (RenderPatternInRgn g rgn pp m).1 x y ↔
  (∃ pm data ct, renderable m pp pm data ct) ∧
  inRect (clip g (rgnBBox rgn)) x y ∧ PtInRgn x y rgn = true.
Proof.
  split.
  - destruct (RenderPatternInRgn_cases g rgn pp m)
      as [-> | (pm & data & ct & Hok & ->)]; simpl.
    + intros (s & Hs & _). by apply elem_of_nil in Hs.
    + intros (s & (Hbox & Hin & _)%elem_of_rgnLoop & <- & <-). eauto 10.
  - intros ((pm & data & ct & Hok) & Hbox & Hin).
    rewrite (RenderPatternInRgn_renderable _ _ _ _ _ _ _ Hok). simpl.
    by apply rgnLoop_covers.
Qed.

(** The region renderer writes the pixels that the rectangle renderer
    writes for the bounding box and that pass the point test. *)
Lemma written_rgn_rect g rgn pp m x y :
  written (RenderPatternInRgn g rgn pp m).1 x y ↔
  written (RenderPatternInRect g (rgnBBox rgn) pp m).1 x y ∧
  PtInRgn x y rgn = true.
Proof. rewrite written_rgn, written_rect. tauto. Qed.

(** C6, as the specification states it, fails twice.  For a rectangular
    region every pixel of the bounding box passes the point test, and the
    two forms write the same pixels: the inclusion is not strict.  And for
    a pattern that fails the renderers' checks, here the NULL pattern,
    nothing is written, although pixel (5, 5) lies in the clipped bounding
    box and in the region. *)
Lemma square_region_not_strictly_fewer :
  ¬ strictly_fewer
      (RenderPatternInRgn Demo.warm Demo.square 10 Demo.mac32).1
      (RenderPatternInRect Demo.warm (rgnBBox Demo.square) 10 Demo.mac32).1 ∧
  (inRect (clip Demo.warm (rgnBBox Demo.square)) 5 5 ∧
   PtInRgn 5 5 Demo.square = true ∧
   ¬ written (RenderPatternInRgn Demo.warm Demo.square 0 Demo.mac32).1 5 5).
Proof.
  split.
  - intros [_ (x & y & Hrect & Hrgn)]. apply Hrgn.
    apply written_rgn_rect. split; [done |].
    apply written_rect in Hrect as [_ Hbox]. revert Hbox.
    unfold inRect. simpl. intros Hbox. apply bool_decide_eq_true. lia.
  - split; [unfold inRect; simpl; lia |]. split; [done |].
    intros (s & Hs & _). by apply elem_of_nil in Hs.
Qed.

(** C6, amended: for every region and pattern, the pixels written in region
    form are among those written in rectangle form over the region's
    bounding box (possibly all of them), and are exactly the pixels written
    in rectangle form that pass the point test.  For a pattern that passes
    the renderers' checks these are exactly the pixels of the clipped
    bounding box that pass the point test; for any other pattern neither
    form writes a pixel. *)
Theorem region_form_subset_of_rect_form g rgn pp m :
  (∀ x y, written (RenderPatternInRgn g rgn pp m).1 x y →
          written (RenderPatternInRect g (rgnBBox rgn) pp m).1 x y) ∧
  (∀ x y, written (RenderPatternInRgn g rgn pp m).1 x y ↔
          written (RenderPatternInRect g (rgnBBox rgn) pp m).1 x y ∧
          PtInRgn x y rgn = true) ∧
  (∀ pm data ct, renderable m pp pm data ct →
     ∀ x y,
       (written (RenderPatternInRect g (rgnBBox rgn) pp m).1 x y ↔
        inRect (clip g (rgnBBox rgn)) x y) ∧
       (written (RenderPatternInRgn g rgn pp m).1 x y ↔
        inRect (clip g (rgnBBox rgn)) x y ∧ PtInRgn x y rgn = true)) ∧
  ((∀ pm data ct, ¬ renderable m pp pm data ct) →
     ∀ x y,
       ¬ written (RenderPatternInRect g (rgnBBox rgn) pp m).1 x y ∧
       ¬ written (RenderPatternInRgn g rgn pp m).1 x y).
Proof.
  split; [| split; [| split]].
  - intros x y. by intros [? _]%written_rgn_rect.
  - intros x y. apply written_rgn_rect.
  - intros pm data ct Hok x y. split.
    + rewrite written_rect. split; [tauto | eauto 10].
    + rewrite written_rgn. split; [tauto | eauto 10].
  - intros Hnot x y. split.
    + intros [(pm & data & ct & Hok) _]%written_rect. by apply (Hnot pm data ct).
    + intros [(pm & data & ct & Hok) _]%written_rgn. by apply (Hnot pm data ct).
Qed.

Lemma region_form_subset_of_rect_form_witness :
  renderable Demo.mac32 10 Demo.tileMap Demo.demoTile Demo.demoTable ∧
  (written (RenderPatternInRgn Demo.warm Demo.corner 10 Demo.mac32).1 5 5 ↔
   inRect (clip Demo.warm (rgnBBox Demo.corner)) 5 5 ∧
   PtInRgn 5 5 Demo.corner = true) ∧
  (written (RenderPatternInRgn Demo.warm Demo.corner 10 Demo.mac32).1 14 14 ↔
   inRect (clip Demo.warm (rgnBBox Demo.corner)) 14 14 ∧
   PtInRgn 14 14 Demo.corner = true).
Proof.
  split; [apply demo_renderable |].
  pose proof (region_form_subset_of_rect_form Demo.warm Demo.corner 10
                Demo.mac32) as (_ & _ & Hexact & _).
  split.
  - exact (proj2 (Hexact Demo.tileMap Demo.demoTile Demo.demoTable
                    demo_renderable 5 5)).
  - exact (proj2 (Hexact Demo.tileMap Demo.demoTile Demo.demoTable
                    demo_renderable 14 14)).
Defined.

(** ** Clipping *)

Lemma rgn_store_in_box g rgn pp m s :
  s ∈ (RenderPatternInRgn g rgn pp m).1 →
  inRect (clip g (rgnBBox rgn)) (scol s) (srow s).
Proof.
  intros Hs.
  assert (written (RenderPatternInRgn g rgn pp m).1 (scol s) (srow s)) as Hw
    by (by exists s).
  by apply written_rgn in Hw as (_ & ? & _).
Qed.

Lemma rect_store_in_box g r pp m s :
  s ∈ (RenderPatternInRect g r pp m).1 →
  inRect (clip g r) (scol s) (srow s).
Proof.
  intros Hs.
  assert (written (RenderPatternInRect g r pp m).1 (scol s) (srow s)) as Hw
    by (by exists s).
  by apply written_rect in Hw as (_ & ?).
Qed.

(** C9: the area a renderer walks is the target's bounding rectangle cut to
    the cached surface: the top and left edges are raised to 0 when
    negative, the bottom and right edges lowered to the surface height and
    width when beyond them, nothing wraps; it holds exactly the points of
    the target rectangle that lie on the surface, the rectangle form writes
    all of them, the region form those in the region, and no store of
    either form falls outside the surface. *)
Theorem clipped_to_surface g m pp pm data ct :
  renderable m pp pm data ct →
  (∀ r, clip g r = mkRect (Z.max (rtop r) 0) (Z.max (rleft r) 0)
                          (Z.min (rbottom r) (gScreenHeight g))
                          (Z.min (rright r) (gScreenWidth g))) ∧
  (∀ r x y, inRect (clip g r) x y ↔ inRect r x y ∧ inSurface g x y) ∧
  (∀ r x y, written (RenderPatternInRect g r pp m).1 x y ↔
            inRect r x y ∧ inSurface g x y) ∧
  (∀ rgn x y, written (RenderPatternInRgn g rgn pp m).1 x y ↔
              (inRect (rgnBBox rgn) x y ∧ inSurface g x y) ∧
              PtInRgn x y rgn = true) ∧
  (∀ s, drawn g m pp s → inSurface g (scol s) (srow s)).
Proof.
  intros Hok. split; [apply clip_max_min |].
  split; [apply inRect_clip |]. split; [| split].
  - intros r x y. rewrite written_rect, inRect_clip.
    split; [tauto | eauto 10].
  - intros rgn x y. rewrite written_rgn, inRect_clip.
    split; [tauto | eauto 10].
  - intros s [[rgn Hs] | [r Hs]].
    + by apply rgn_store_in_box, inRect_clip in Hs as [_ ?].
    + by apply rect_store_in_box, inRect_clip in Hs as [_ ?].
Qed.

Lemma clipped_to_surface_witness :
  renderable Demo.mac32 10 Demo.tileMap Demo.demoTile Demo.demoTable ∧
  clip Demo.warm (mkRect (-3) 12 9 40) = mkRect 0 12 9 20 ∧
  (written (RenderPatternInRect Demo.warm (mkRect (-3) 12 9 40) 10
              Demo.mac32).1 19 0 ↔
   inRect (mkRect (-3) 12 9 40) 19 0 ∧ inSurface Demo.warm 19 0).
Proof.
  split; [apply demo_renderable |].
  pose proof (clipped_to_surface Demo.warm Demo.mac32 10 Demo.tileMap
                Demo.demoTile Demo.demoTable demo_renderable)
    as (Hclip & _ & Hrect & _).
  split; [apply (Hclip (mkRect (-3) 12 9 40)) | apply Hrect].
Defined.

(** ** Degenerate tiles *)





(** ** The screen cache *)

Lemma EnsureScreenInfo_ready m g :
  gScreenReady g ≠ 0 → EnsureScreenInfo m g = (true, g).
Proof. intros Hready. unfold EnsureScreenInfo. by case_decide. Qed.

Lemma EnsureScreenInfo_fresh m g dev pm :
  gScreenReady g = 0 →
  deref (gdevices m) (mainDevice m) = Some dev →
  deref (pixmaps m) (gdPMap dev) = Some pm →
  pixelSize pm = 32 →
  EnsureScreenInfo m g =
  (true, mkGlobals (gInPatch g) (baseAddr pm) (Z.land (rowBytes pm) 16383)
           (s16 (rright (bounds pm) - rleft (bounds pm)))
           (s16 (rbottom (bounds pm) - rtop (bounds pm))) 1).
Proof.
  intros Hcold Hdev Hpm Hdepth. unfold EnsureScreenInfo.
  case_decide; [done |]. rewrite Hdev, Hpm. by case_decide.
Qed.

(** A query that fails changes nothing, and can only happen while the cache
    is not ready. *)
Lemma EnsureScreenInfo_failed m g :
  (EnsureScreenInfo m g).1 = false →
  EnsureScreenInfo m g = (false, g) ∧ gScreenReady g = 0.
Proof.
  unfold EnsureScreenInfo. case_decide as Hready; [done |].
  intros Hfail. split; [| lia].
  repeat case_match; simpl in *; congruence.
Qed.

(** C8: the first successful call caches the base address, the low 14 bits
    of the row stride, and the width and height taken from the device's
    pixel bounds, and marks the cache ready; from then on every call
    answers true and leaves the cache alone, whatever the device has
    become. *)
Theorem surface_info_cached m g dev pm :
  gScreenReady g = 0 →
  deref (gdevices m) (mainDevice m) = Some dev →
  deref (pixmaps m) (gdPMap dev) = Some pm →
  pixelSize pm = 32 →
  let g' := (EnsureScreenInfo m g).2 in
  (EnsureScreenInfo m g).1 = true ∧
  gScreenBase g' = baseAddr pm ∧
  gScreenRowBytes g' = rowBytes pm mod 2 ^ 14 ∧
  gScreenWidth g' = s16 (rright (bounds pm) - rleft (bounds pm)) ∧
  gScreenHeight g' = s16 (rbottom (bounds pm) - rtop (bounds pm)) ∧
  gScreenReady g' ≠ 0 ∧
  gInPatch g' = gInPatch g ∧
  (∀ m', EnsureScreenInfo m' g' = (true, g')).
Proof.
  intros Hcold Hdev Hpm Hdepth g'. subst g'.
  rewrite (EnsureScreenInfo_fresh m g dev pm Hcold Hdev Hpm Hdepth). simpl.
  split; [done |]. split; [done |].
  split; [change 16383 with (Z.ones 14); apply Z.land_ones; lia |].
  do 4 (split; [done |]).
  intros m'. by apply EnsureScreenInfo_ready.
Qed.

Lemma surface_info_cached_witness :
  gScreenReady Demo.cold = 0 ∧
  deref (gdevices Demo.mac32) (mainDevice Demo.mac32) = Some (mkGDevice 41) ∧
  deref (pixmaps Demo.mac32) 41 = Some Demo.screenMap ∧
  pixelSize Demo.screenMap = 32 ∧
  (EnsureScreenInfo Demo.mac32 Demo.cold).1 = true ∧
  gScreenRowBytes (EnsureScreenInfo Demo.mac32 Demo.cold).2
    = (-32688) mod 2 ^ 14 ∧
  (∀ m', EnsureScreenInfo m' (EnsureScreenInfo Demo.mac32 Demo.cold).2
         = (true, (EnsureScreenInfo Demo.mac32 Demo.cold).2)).
Proof.
  split; [reflexivity |]. split; [reflexivity |]. split; [reflexivity |].
  split; [reflexivity |].
  pose proof (surface_info_cached Demo.mac32 Demo.cold (mkGDevice 41)
                Demo.screenMap eq_refl eq_refl eq_refl eq_refl)
    as (Hok & _ & Hrow & _ & _ & _ & _ & Hagain).
  split; [exact Hok |]. split; [exact Hrow | exact Hagain].
Defined.

(** ** The guard *)

(** The walk along the window list tests every window but the last. *)
Lemma IsRectInAnyWindowStruc_removelast m r wins :
  IsRectInAnyWindowStruc m r wins =
  existsb (λ w, match deref (rgns m) (strucRgn w) with
                | Some s => RectInRgn r s
                | None => false
                end)
          (removelast wins).
Proof.
  induction wins as [| w next IH]; [done |].
  destruct next as [| w' rest]; [done |].
  change (removelast (w :: w' :: rest)) with (w :: removelast (w' :: rest)).
  cbn [existsb]. rewrite <- IH. cbn [IsRectInAnyWindowStruc].
  destruct (deref (rgns m) (strucRgn w)) as [s |]; [| done].
  by destruct (RectInRgn r s).
Qed.

Lemma IsRectInAnyWindowStruc_meets m r :
  IsRectInAnyWindowStruc m r (WindowList m) = meetsAnyWindow m r.
Proof. apply IsRectInAnyWindowStruc_removelast. Qed.

(** The chain of comparisons in the patches is the size window of the
    specification. *)
Lemma size_window (least : Z) (box : Rect) :
  bool_decide (rright box - rleft box >= least) &&
  bool_decide (rbottom box - rtop box >= least) &&
  bool_decide (rright box - rleft box ≤ 250) &&
  bool_decide (rbottom box - rtop box ≤ 250) =
  bool_decide (least ≤ rright box - rleft box ≤ 250) &&
  bool_decide (least ≤ rbottom box - rtop box ≤ 250).
Proof.
  repeat case_bool_decide; simpl; try done; lia.
Qed.

Lemma guard_chain (ready : bool) (m : Mac) (box : Rect) (least : Z) :
  (if ready then
     if IsWMgrDraw m then
       bool_decide (rright box - rleft box >= least) &&
       bool_decide (rbottom box - rtop box >= least) &&
       bool_decide (rright box - rleft box ≤ 250) &&
       bool_decide (rbottom box - rtop box ≤ 250) &&
       bool_decide (rtop box >= MBarHeight m) &&
       negb (IsRectInAnyWindowStruc m box (WindowList m))
     else false
   else false) = shouldRepair ready m (Some box) least.
Proof.
  unfold shouldRepair, IsWMgrDraw. rewrite IsRectInAnyWindowStruc_meets.
  rewrite size_window.
  destruct ready; [| done]. simpl.
  destruct (bool_decide (thePort m = WMgrCPort m)); [| done]. simpl.
  f_equal. f_equal. apply bool_decide_ext. lia.
Qed.

Lemma RenderPatternInRect_null g r m : RenderPatternInRect g r 0 m = ([], m).
Proof. done. Qed.

Lemma set_gInPatch_reset g : gInPatch g = 0 → set_gInPatch 0 (set_gInPatch 1 g) = g.
Proof. intros Hg. destruct g. simpl in *. by subst. Qed.

Section Interception.

Variable gOldFillCRgn : Z → Z → Mac → Mac.
Variable gOldEraseRect : option Rect → Mac → Mac.

Lemma PatchedFillCRgn_top rgn pp g m :
  gInPatch g = 0 →
  let m1 := gOldFillCRgn rgn pp m in
  let q := EnsureScreenInfo m1 (set_gInPatch 1 g) in
  PatchedFillCRgn gOldFillCRgn rgn pp (g, m) =
  (set_gInPatch 0 q.2,
   match deref (rgns m1) rgn with
   | Some R =>
       if shouldRepair q.1 m1 (Some (rgnBBox R)) 4
       then (RenderPatternInRgn q.2 R pp m1).2
       else m1
   | None => m1
   end).
Proof.
  intros Hflag m1 q. unfold PatchedFillCRgn.
  case_decide as Hin; [done |]. fold m1. fold q.
  destruct q as [ready g2]. cbn [fst snd]. f_equal.
  destruct (deref (rgns m1) rgn) as [R |]; [| by destruct ready].
  rewrite <- guard_chain.
  destruct ready; [| done]. by destruct (IsWMgrDraw m1).
Qed.

Lemma PatchedEraseRect_top r g m :
  gInPatch g = 0 →
  let m1 := gOldEraseRect r m in
  let q := EnsureScreenInfo m1 (set_gInPatch 1 g) in
  PatchedEraseRect gOldEraseRect r (g, m) =
  (set_gInPatch 0 q.2,
   match r with
   | Some rc =>
       if shouldRepair q.1 m1 (Some rc) 2
       then (RenderPatternInRect q.2 rc (wmgrBackPat m1) m1).2
       else m1
   | None => m1
   end).
Proof.
  intros Hflag m1 q. unfold PatchedEraseRect.
  case_decide as Hin; [done |]. fold m1. fold q.
  destruct q as [ready g2]. cbn [fst snd]. f_equal.
  destruct r as [rc |]; [| by destruct ready].
  rewrite <- guard_chain.
  destruct ready; [| done]. destruct (IsWMgrDraw m1); [| done].
  match goal with |- (if ?c then _ else _) = _ => destruct c; [| done] end.
  unfold wmgrBackPat.
  case_decide as Hsrc; case_decide as Hspec; try done; try lia.
  assert (bkPixPat (cports m1 !!! WMgrCPort m1) = 0) as -> by lia.
  by rewrite RenderPatternInRect_null.
Qed.

Lemma PatchedFillCRgn_nested rgn pp g m :
  gInPatch g ≠ 0 →
  PatchedFillCRgn gOldFillCRgn rgn pp (g, m) = (g, gOldFillCRgn rgn pp m).
Proof. intros Hflag. unfold PatchedFillCRgn. by case_decide. Qed.

Lemma PatchedEraseRect_nested r g m :
  gInPatch g ≠ 0 →
  PatchedEraseRect gOldEraseRect r (g, m) = (g, gOldEraseRect r m).
Proof. intros Hflag. unfold PatchedEraseRect. by case_decide. Qed.

End Interception.

(** ** The intercepted calls *)

(** C4: in a top-level call the renderer runs exactly when the guard of the
    specification holds: the screen cache answers ready, the current port is
    the Window Manager port, the bounding box is at least 4 (region form)
    or 2 (rectangle form) and at most 250 wide and high, its top is not
    above the menu bar height, and it meets no window's structure region
    other than the last window's.  When one condition is missing the
    machine is left as the original trap left it.  (In rectangle form the
    pattern is the port's background pattern; without one the renderer has
    nothing to draw.) *)
Theorem repaint_iff_guard gOldFillCRgn gOldEraseRect g m :
  gInPatch g = 0 →
  (∀ rgn pp,
     let m1 := gOldFillCRgn rgn pp m in
     let q := EnsureScreenInfo m1 (set_gInPatch 1 g) in
     let fires :=
       shouldRepair q.1 m1 (rgnBBox <$> deref (rgns m1) rgn) 4 in
     (fires = true →
      ∃ R, deref (rgns m1) rgn = Some R ∧
           (PatchedFillCRgn gOldFillCRgn rgn pp (g, m)).2
           = (RenderPatternInRgn q.2 R pp m1).2) ∧
     (fires = false →
      (PatchedFillCRgn gOldFillCRgn rgn pp (g, m)).2 = m1)) ∧
  (∀ r,
     let m1 := gOldEraseRect r m in
     let q := EnsureScreenInfo m1 (set_gInPatch 1 g) in
     let fires := shouldRepair q.1 m1 r 2 in
     (fires = true →
      ∃ rc, r = Some rc ∧
            (PatchedEraseRect gOldEraseRect r (g, m)).2
            = (RenderPatternInRect q.2 rc (wmgrBackPat m1) m1).2) ∧
     (fires = false →
      (PatchedEraseRect gOldEraseRect r (g, m)).2 = m1)).
Proof.
  intros Hflag. split.
  - intros rgn pp m1 q fires. subst fires.
    rewrite (PatchedFillCRgn_top gOldFillCRgn rgn pp g m Hflag).
    fold m1. fold q. cbn [snd].
    destruct (deref (rgns m1) rgn) as [R |]; cbn [fmap option_fmap option_map].
    + split; intros ->; eauto.
    + split; [done | by intros _].
  - intros r m1 q fires. subst fires.
    rewrite (PatchedEraseRect_top gOldEraseRect r g m Hflag).
    fold m1. fold q. cbn [snd].
    destruct r as [rc |].
    + split; intros ->; eauto.
    + split; [done | by intros _].
Qed.

Lemma repaint_iff_guard_witness :
  gInPatch Demo.cold = 0 ∧
  (PatchedFillCRgn Demo.idleFillCRgn 50 10 (Demo.cold, Demo.mac32)).2
  = (RenderPatternInRgn
       (EnsureScreenInfo Demo.mac32 (set_gInPatch 1 Demo.cold)).2
       Demo.square 10 Demo.mac32).2 ∧
  (PatchedEraseRect Demo.idleEraseRect (Some (mkRect 5 5 15 305))
     (Demo.cold, Demo.mac32)).2 = Demo.mac32.
Proof.
  split; [reflexivity |].
  pose proof (repaint_iff_guard Demo.idleFillCRgn Demo.idleEraseRect
                Demo.cold Demo.mac32 eq_refl) as [Hfill Herase].
  split.
  - destruct (Hfill 50 10) as [Hyes _].
    destruct (Hyes eq_refl) as (R & HR & Heq).
    injection HR as <-. exact Heq.
  - destruct (Herase (Some (mkRect 5 5 15 305))) as [_ Hno].
    exact (Hno eq_refl).
Defined.

(** C5: while the recursion flag is set, a call of either patched trap is
    the saved original and nothing else: the globals are untouched, and the
    machine is the one the original leaves, with no guard and no
    renderer. *)
Theorem nested_call_only_original gOldFillCRgn gOldEraseRect g m :
  gInPatch g ≠ 0 →
  (∀ rgn pp, PatchedFillCRgn gOldFillCRgn rgn pp (g, m)
             = (g, gOldFillCRgn rgn pp m)) ∧
  (∀ r, PatchedEraseRect gOldEraseRect r (g, m) = (g, gOldEraseRect r m)).
Proof.
  intros Hflag. split.
  - intros rgn pp. by apply PatchedFillCRgn_nested.
  - intros r. by apply PatchedEraseRect_nested.
Qed.

Lemma nested_call_only_original_witness :
  gInPatch Demo.nested ≠ 0 ∧
  PatchedFillCRgn Demo.idleFillCRgn 50 10 (Demo.nested, Demo.mac32)
  = (Demo.nested, Demo.mac32) ∧
  PatchedEraseRect Demo.idleEraseRect (Some (mkRect 5 5 15 15))
    (Demo.nested, Demo.mac32) = (Demo.nested, Demo.mac32).
Proof.
  assert (gInPatch Demo.nested ≠ 0) as Hflag by (simpl; lia).
  split; [exact Hflag |].
  pose proof (nested_call_only_original Demo.idleFillCRgn Demo.idleEraseRect
                Demo.nested Demo.mac32 Hflag) as [Hfill Herase].
  split; [apply (Hfill 50 10) | apply (Herase (Some (mkRect 5 5 15 15)))].
Defined.

(** During a top-level call the original runs with the flag set, so a call
    it makes to the other patched trap is such a nested call: it behaves as
    if the original had called the saved EraseRect directly. *)
Lemma nested_call_inside_top_level gOldFillCRgn gOldEraseRect g m rgn pp r :
  gInPatch g = 0 →
  PatchedFillCRgn
    (λ rgn pp m', gOldFillCRgn rgn pp
       (PatchedEraseRect gOldEraseRect r (set_gInPatch 1 g, m')).2)
    rgn pp (g, m)
  = PatchedFillCRgn
      (λ rgn pp m', gOldFillCRgn rgn pp (gOldEraseRect r m')) rgn pp (g, m).
Proof.
  intros Hflag. unfold PatchedFillCRgn. case_decide; [done |].
  by rewrite PatchedEraseRect_nested.
Qed.

(** ** A failed capability query *)

(** C7, as the specification states it, fails: a query that fails is not
    remembered.  The first call below finds the display at 8 bits per pixel
    and leaves everything alone; once the display is at 32 bits per pixel
    the next call, starting from the globals the first one left, stores the
    pattern colour at surface pixel (5, 5), address 1000 + 5 * 80 + 4 * 5. *)
Lemma failed_query_is_not_remembered :
  (EnsureScreenInfo Demo.mac8 (set_gInPatch 1 Demo.cold)).1 = false ∧
  PatchedFillCRgn Demo.idleFillCRgn 50 10 (Demo.cold, Demo.mac8)
  = (Demo.cold, Demo.mac8) ∧
  ram Demo.mac32 !! 1420 = None ∧
  ram (PatchedFillCRgn Demo.idleFillCRgn 50 10
         ((PatchedFillCRgn Demo.idleFillCRgn 50 10
             (Demo.cold, Demo.mac8)).1, Demo.mac32)).2 !! 1420
  = Some 1201818.
Proof. repeat split; by vm_compute. Qed.

(** C7, amended: a failed capability query disables the fix for that call
    only.  The call leaves the machine as the original trap left it and the
    globals as they were, the cache still not ready; so a later call asks
    the device again, and succeeds as soon as the device has a 32-bit pixel
    map. *)
Theorem failed_query_suppresses_one_call gOldFillCRgn gOldEraseRect g m :
  gInPatch g = 0 →
  (∀ rgn pp,
     (EnsureScreenInfo (gOldFillCRgn rgn pp m) (set_gInPatch 1 g)).1 = false →
     PatchedFillCRgn gOldFillCRgn rgn pp (g, m) = (g, gOldFillCRgn rgn pp m) ∧
     gScreenReady g = 0) ∧
  (∀ r,
     (EnsureScreenInfo (gOldEraseRect r m) (set_gInPatch 1 g)).1 = false →
     PatchedEraseRect gOldEraseRect r (g, m) = (g, gOldEraseRect r m) ∧
     gScreenReady g = 0) ∧
  (∀ m' dev pm,
     gScreenReady g = 0 →
     deref (gdevices m') (mainDevice m') = Some dev →
     deref (pixmaps m') (gdPMap dev) = Some pm →
     pixelSize pm = 32 →
     (EnsureScreenInfo m' (set_gInPatch 1 g)).1 = true).
Proof.
  intros Hflag. split; [| split].
  - intros rgn pp Hfail.
    rewrite (PatchedFillCRgn_top gOldFillCRgn rgn pp g m Hflag).
    apply EnsureScreenInfo_failed in Hfail as [Hq Hcold].
    rewrite Hq. cbn [fst snd]. split; [| done].
    rewrite (set_gInPatch_reset g Hflag). f_equal.
    by destruct (deref (rgns (gOldFillCRgn rgn pp m)) rgn).
  - intros r Hfail.
    rewrite (PatchedEraseRect_top gOldEraseRect r g m Hflag).
    apply EnsureScreenInfo_failed in Hfail as [Hq Hcold].
    rewrite Hq. cbn [fst snd]. split; [| done].
    rewrite (set_gInPatch_reset g Hflag). f_equal.
    by destruct r.
  - intros m' dev pm Hcold Hdev Hpm Hdepth.
    by rewrite (EnsureScreenInfo_fresh m' (set_gInPatch 1 g) dev pm Hcold Hdev Hpm Hdepth).
Qed.

Lemma failed_query_suppresses_one_call_witness :
  gInPatch Demo.cold = 0 ∧
  (EnsureScreenInfo (Demo.idleFillCRgn 50 10 Demo.mac8)
     (set_gInPatch 1 Demo.cold)).1 = false ∧
  PatchedFillCRgn Demo.idleFillCRgn 50 10 (Demo.cold, Demo.mac8)
  = (Demo.cold, Demo.idleFillCRgn 50 10 Demo.mac8) ∧
  (EnsureScreenInfo Demo.mac32 (set_gInPatch 1 Demo.cold)).1 = true.
Proof.
  split; [reflexivity |]. split; [reflexivity |].
  pose proof (failed_query_suppresses_one_call Demo.idleFillCRgn
                Demo.idleEraseRect Demo.cold Demo.mac8 eq_refl)
    as (Hfill & _ & Hlater).
  split.
  - exact (proj1 (Hfill 50 10 eq_refl)).
  - exact (Hlater Demo.mac32 (mkGDevice 41) Demo.screenMap
             eq_refl eq_refl eq_refl eq_refl).
Defined.

(** ** The two scenarios of the specification *)

(** A 10x10 square inside the 20x20 surface, below the menu bar, drawn
    through the Window Manager port, clear of every window, with a tile
    whose pixels all have index 0, pure red: the call stores pure red at
    the hundred pixels of the square, here its first and last, and leaves
    the pixel to the left of the square alone. *)
Example scenario_square_painted_red :
  let stores := (RenderPatternInRgn Demo.warm Demo.square 10 Demo.macRed).1 in
  let after :=
    (PatchedFillCRgn Demo.idleFillCRgn 50 10 (Demo.cold, Demo.macRed)).2 in
  length stores = 100%nat ∧
  forallb (λ s, bool_decide (sval s = 16711680)) stores = true ∧
  ram after !! (1000 + 5 * 80 + 4 * 5) = Some 16711680 ∧
  ram after !! (1000 + 14 * 80 + 4 * 14) = Some 16711680 ∧
  ram after !! (1000 + 5 * 80 + 4 * 4) = None.
Proof. repeat split; by vm_compute. Qed.

(** The same call for an area 300 wide: nothing is repainted. *)
Example scenario_wide_area_untouched :
  PatchedFillCRgn Demo.idleFillCRgn 52 10 (Demo.warm, Demo.macRed)
  = (Demo.warm, Demo.macRed).
Proof. by vm_compute. Qed.

(** * Further properties of the code *)

(** ** The screen cache, continued *)

Lemma stride_range z : 0 ≤ Z.land z 16383 < 16384.
Proof.
  change 16383 with (Z.ones 14). rewrite Z.land_ones by lia.
  apply Z.mod_pos_bound. lia.
Qed.

Lemma EnsureScreenInfo_keeps_range m g :
  cacheInRange g → cacheInRange (EnsureScreenInfo m g).2.
Proof.
  intros Hg. unfold EnsureScreenInfo.
  case_decide as Hready; [done |].
  destruct (deref (gdevices m) (mainDevice m)) as [dev |]; [| done].
  destruct (deref (pixmaps m) (gdPMap dev)) as [pm |]; [| done].
  case_decide; [done |].
  intros _. simpl. split; [apply stride_range |].
  split; apply s16_range.
Qed.

Lemma EnsureScreenInfo_keeps_flag m g :
  gInPatch (EnsureScreenInfo m g).2 = gInPatch g.
Proof.
  unfold EnsureScreenInfo. repeat case_match; done.
Qed.

(** X1: the screen query answers true exactly when the cache is already
    ready or the main device leads to a pixel map of depth 32; an absent
    device, an absent pixel map and any other depth all answer false.  The
    query never changes the recursion flag. *)
Theorem screen_query_answer m g :
  ((EnsureScreenInfo m g).1 = true ↔
   gScreenReady g ≠ 0 ∨
   ∃ dev pm, deref (gdevices m) (mainDevice m) = Some dev ∧
             deref (pixmaps m) (gdPMap dev) = Some pm ∧
             pixelSize pm = 32) ∧
  gInPatch (EnsureScreenInfo m g).2 = gInPatch g.
Proof.
  split; [| apply EnsureScreenInfo_keeps_flag].
  unfold EnsureScreenInfo. case_decide as Hready.
  { split; [by left | done]. }
  destruct (deref (gdevices m) (mainDevice m)) as [dev |] eqn:Hdev.
  - destruct (deref (pixmaps m) (gdPMap dev)) as [pm |] eqn:Hpm.
    + case_decide as Hdepth; simpl.
      * split; [done |]. intros [? | (dev' & pm' & Hd' & Hp' & H32)]; [done |].
        assert (dev' = dev) as -> by congruence.
        assert (pm' = pm) as -> by congruence. done.
      * split; [| done]. intros _. right. exists dev, pm.
        split; [done |]. split; [done | lia].
    + simpl. split; [done |].
      intros [? | (dev' & pm' & Hd' & Hp' & _)]; [done |].
      assert (dev' = dev) as -> by congruence. congruence.
  - simpl. split; [done |].
    intros [? | (dev' & pm' & Hd' & _)]; [done | congruence].
Qed.

(** ** What the patched traps leave behind *)

Lemma set_gInPatch_keeps_range v g :
  cacheInRange g → cacheInRange (set_gInPatch v g).
Proof. by destruct g. Qed.

Lemma deref_heap_settled m pp h :
  deref (heap (settled m pp)) h = deref (heap m) h.
Proof.
  unfold settled. repeat case_match; try done.
  by rewrite heap_set_heap, deref_HLock.
Qed.

Lemma RenderPatternInRgn_only_ram g rgn pp m :
  separate m pp → ∃ mem, (RenderPatternInRgn g rgn pp m).2 = set_ram mem m.
Proof.
  intros Hsep. eexists.
  by rewrite RenderPatternInRgn_state, (settled_separate m pp Hsep).
Qed.

Lemma RenderPatternInRect_only_ram g r pp m :
  separate m pp → ∃ mem, (RenderPatternInRect g r pp m).2 = set_ram mem m.
Proof.
  intros Hsep. eexists.
  by rewrite RenderPatternInRect_state, (settled_separate m pp Hsep).
Qed.

Lemma RenderPatternInRgn_only_flags g rgn pp m :
  ∃ mem hp, (RenderPatternInRgn g rgn pp m).2 = set_ram mem (set_heap hp m) ∧
            ∀ h, deref hp h = deref (heap m) h.
Proof.
  exists (pokes g (RenderPatternInRgn g rgn pp m).1 (ram m)),
         (heap (settled m pp)).
  split; [| apply deref_heap_settled].
  rewrite RenderPatternInRgn_state. unfold settled.
  repeat case_match; by destruct m.
Qed.

Lemma RenderPatternInRect_only_flags g r pp m :
  ∃ mem hp, (RenderPatternInRect g r pp m).2 = set_ram mem (set_heap hp m) ∧
            ∀ h, deref hp h = deref (heap m) h.
Proof.
  exists (pokes g (RenderPatternInRect g r pp m).1 (ram m)),
         (heap (settled m pp)).
  split; [| apply deref_heap_settled].
  rewrite RenderPatternInRect_state. unfold settled.
  repeat case_match; by destruct m.
Qed.

Lemma wmgrBackPat_port m :
  WMgrCPort m ≠ 0 → wmgrBackPat m = bkPixPat (cports m !!! WMgrCPort m).
Proof. intros Hport. unfold wmgrBackPat. by case_decide. Qed.

Lemma unchanged_only_flags m :
  ∃ mem hp, m = set_ram mem (set_heap hp m) ∧
            ∀ h, deref hp h = deref (heap m) h.
Proof. exists (ram m), (heap m). split; [by destruct m | done]. Qed.

Lemma PatchedFillCRgn_globals oldF rgn pp g m :
  (PatchedFillCRgn oldF rgn pp (g, m)).1 =
  if decide (gInPatch g ≠ 0) then g
  else set_gInPatch 0 (EnsureScreenInfo (oldF rgn pp m) (set_gInPatch 1 g)).2.
Proof.
  unfold PatchedFillCRgn. case_decide; [done |].
  by destruct (EnsureScreenInfo _ _).
Qed.

Lemma PatchedEraseRect_globals oldE r g m :
  (PatchedEraseRect oldE r (g, m)).1 =
  if decide (gInPatch g ≠ 0) then g
  else set_gInPatch 0 (EnsureScreenInfo (oldE r m) (set_gInPatch 1 g)).2.
Proof.
  unfold PatchedEraseRect. case_decide; [done |].
  by destruct (EnsureScreenInfo _ _).
Qed.

(** X2: both patched traps return with the recursion flag as they found
    it, on every path: a nested call does not touch it, and a top-level
    call clears it again whether or not it repainted. *)
Theorem recursion_flag_restored oldF oldE g m :
  (∀ rgn pp, gInPatch (PatchedFillCRgn oldF rgn pp (g, m)).1 = gInPatch g) ∧
  (∀ r, gInPatch (PatchedEraseRect oldE r (g, m)).1 = gInPatch g).
Proof.
  split.
  - intros rgn pp. rewrite PatchedFillCRgn_globals. case_decide; [done |].
    simpl. lia.
  - intros r. rewrite PatchedEraseRect_globals. case_decide; [done |].
    simpl. lia.
Qed.

(** X3: a ready screen cache is never rewritten: when the cache is ready on
    entry, either patched trap returns the globals exactly as they were,
    whatever the display has become in the meantime. *)
Theorem ready_cache_is_stable oldF oldE g m :
  gScreenReady g ≠ 0 →
  (∀ rgn pp, (PatchedFillCRgn oldF rgn pp (g, m)).1 = g) ∧
  (∀ r, (PatchedEraseRect oldE r (g, m)).1 = g).
Proof.
  intros Hready. split.
  - intros rgn pp. rewrite PatchedFillCRgn_globals.
    case_decide as Hflag; [done |].
    rewrite EnsureScreenInfo_ready by done. simpl.
    apply set_gInPatch_reset. lia.
  - intros r. rewrite PatchedEraseRect_globals.
    case_decide as Hflag; [done |].
    rewrite EnsureScreenInfo_ready by done. simpl.
    apply set_gInPatch_reset. lia.
Qed.

Lemma ready_cache_is_stable_witness :
  gScreenReady Demo.warm ≠ 0 ∧
  (PatchedFillCRgn Demo.idleFillCRgn 50 10 (Demo.warm, Demo.mac8)).1
  = Demo.warm.
Proof.
  assert (gScreenReady Demo.warm ≠ 0) as Hready by (simpl; lia).
  split; [exact Hready |].
  exact (proj1 (ready_cache_is_stable Demo.idleFillCRgn Demo.idleEraseRect
                  Demo.warm Demo.mac8 Hready) 50 10).
Defined.

(** X4: the range invariant of the cache is kept by both patched traps: a
    ready cache always holds a stride of 14 bits and a width and height
    that fit a short. *)
Theorem cache_range_invariant oldF oldE g m :
  cacheInRange g →
  (∀ rgn pp, cacheInRange (PatchedFillCRgn oldF rgn pp (g, m)).1) ∧
  (∀ r, cacheInRange (PatchedEraseRect oldE r (g, m)).1).
Proof.
  intros Hg. split.
  - intros rgn pp. rewrite PatchedFillCRgn_globals. case_decide; [done |].
    by apply set_gInPatch_keeps_range, EnsureScreenInfo_keeps_range,
      set_gInPatch_keeps_range.
  - intros r. rewrite PatchedEraseRect_globals. case_decide; [done |].
    by apply set_gInPatch_keeps_range, EnsureScreenInfo_keeps_range,
      set_gInPatch_keeps_range.
Qed.

Lemma cache_range_invariant_witness :
  cacheInRange Demo.cold ∧
  cacheInRange
    (PatchedFillCRgn Demo.idleFillCRgn 50 10 (Demo.cold, Demo.mac32)).1.
Proof.
  assert (cacheInRange Demo.cold) as Hcold by (intros Hready; by simpl in Hready).
  split; [exact Hcold |].
  exact (proj1 (cache_range_invariant Demo.idleFillCRgn Demo.idleEraseRect
                  Demo.cold Demo.mac32 Hcold) 50 10).
Defined.

(** X5: whatever a patched trap does beyond the original trap, it does to
    the frame buffer and to flags bytes of the heap: no block changes its
    contents or its master pointer, and no port, low-memory global or
    window list is changed.  When the pattern's pixel map and pixel data
    are reached through different handles, the frame buffer is all that
    changes: the machine returned is the one the original left, up to
    stored pixels. *)
Theorem patch_changes_only_pixels oldF oldE g m :
  (∀ rgn pp, ∃ mem hp,
     (PatchedFillCRgn oldF rgn pp (g, m)).2
     = set_ram mem (set_heap hp (oldF rgn pp m)) ∧
     ∀ h, deref hp h = deref (heap (oldF rgn pp m)) h) ∧
  (∀ r, ∃ mem hp,
     (PatchedEraseRect oldE r (g, m)).2
     = set_ram mem (set_heap hp (oldE r m)) ∧
     ∀ h, deref hp h = deref (heap (oldE r m)) h) ∧
  (∀ rgn pp, separate (oldF rgn pp m) pp →
     ∃ mem, (PatchedFillCRgn oldF rgn pp (g, m)).2
            = set_ram mem (oldF rgn pp m)) ∧
  (∀ r, separate (oldE r m) (wmgrBackPat (oldE r m)) →
     ∃ mem, (PatchedEraseRect oldE r (g, m)).2 = set_ram mem (oldE r m)).
Proof.
  split; [| split; [| split]].
  - intros rgn pp. unfold PatchedFillCRgn.
    case_decide; [apply unchanged_only_flags |].
    destruct (EnsureScreenInfo _ _) as [ready g2]. cbn [snd].
    repeat case_match;
      auto using RenderPatternInRgn_only_flags, unchanged_only_flags.
  - intros r. unfold PatchedEraseRect.
    case_decide; [apply unchanged_only_flags |].
    destruct (EnsureScreenInfo _ _) as [ready g2]. cbn [snd].
    repeat case_match;
      auto using RenderPatternInRect_only_flags, unchanged_only_flags.
  - intros rgn pp Hsep. unfold PatchedFillCRgn.
    case_decide; [exists (ram (oldF rgn pp m)); by rewrite set_ram_same |].
    destruct (EnsureScreenInfo _ _) as [ready g2]. cbn [snd].
    pose proof (set_ram_same (oldF rgn pp m)) as Hsame.
    repeat case_match; eauto using RenderPatternInRgn_only_ram.
  - intros r Hsep. unfold PatchedEraseRect.
    case_decide; [exists (ram (oldE r m)); by rewrite set_ram_same |].
    destruct (EnsureScreenInfo _ _) as [ready g2]. cbn [snd].
    pose proof (set_ram_same (oldE r m)) as Hsame.
    repeat case_match; eauto.
    apply RenderPatternInRect_only_ram.
    rewrite wmgrBackPat_port in Hsep; [done |].
    match goal with Hboth : _ ∧ _ |- _ => apply Hboth end.
Qed.

Lemma patch_changes_only_pixels_witness :
  separate (Demo.idleFillCRgn 50 10 Demo.mac32) 10 ∧
  ∃ mem, (PatchedFillCRgn Demo.idleFillCRgn 50 10 (Demo.cold, Demo.mac32)).2
         = set_ram mem (Demo.idleFillCRgn 50 10 Demo.mac32).
Proof.
  split; [apply demo_separate |].
  exact (proj1 (proj2 (proj2 (patch_changes_only_pixels Demo.idleFillCRgn
                                Demo.idleEraseRect Demo.cold Demo.mac32)))
               50 10 demo_separate).
Defined.

(** ** Patterns the renderers refuse *)

Lemma unsupported_not_renderable m pp pm data ct :
  unsupported m pp → ¬ renderable m pp pm data ct.
Proof.
  intros Hbad (P & HP & Htype & Hpm & Hd & HW & HH & Hdepth & Hct).
  destruct Hbad as [Hnone | (P' & HP' & Hbad)]; [congruence |].
  assert (P' = P) as -> by congruence.
  destruct Hbad as [? | [? | [? | (pm' & Hpm' & Hbad)]]]; try congruence.
  assert (pm' = pm) as -> by congruence.
  destruct Hbad as [? | [? | [? | ?]]]; try lia; congruence.
Qed.

Lemma unsupported_or_renderable m pp :
  unsupported m pp ∨ ∃ pm data ct, renderable m pp pm data ct.
Proof.
  unfold unsupported, renderable.
  destruct (deref (pixpats m) pp) as [P |] eqn:HP; [| by left; left].
  destruct (decide (patType P = 1)) as [Htype | Htype];
    [| left; right; exists P; eauto].
  destruct (deref (pixmaps m) (patMap P)) as [pm |] eqn:Hpm;
    [| left; right; exists P; eauto].
  destruct (deref (datas m) (patData P)) as [data |] eqn:Hd;
    [| left; right; exists P; eauto 10].
  destruct (decide (tileWidth pm ≤ 0)) as [HW | HW];
    [left; right; exists P; eauto 10 |].
  destruct (decide (tileHeight pm ≤ 0)) as [HH | HH];
    [left; right; exists P; eauto 10 |].
  destruct (decide (pixelSize pm = 8)) as [Hdepth | Hdepth];
    [| left; right; exists P; eauto 10].
  destruct (deref (ctabs m) (pmTable pm)) as [ct |] eqn:Hct;
    [| left; right; exists P; eauto 10].
  right. exists pm, data, ct, P. repeat split; try done; lia.
Qed.

Lemma no_store_result (res : list Store * Mac) m pp :
  res = ([], settled m pp) →
  (res.1 = [] ∧ ram res.2 = ram m) ∧ (separate m pp → res = ([], m)).
Proof.
  intros ->. split; [split; [done | apply ram_settled] |].
  intros Hsep. by rewrite (settled_separate m pp Hsep).
Qed.

Lemma unrendered_rgn g rgn pp m :
  (∀ pm data ct, ¬ renderable m pp pm data ct) →
  RenderPatternInRgn g rgn pp m = ([], settled m pp).
Proof.
  intros Hnot.
  destruct (RenderPatternInRgn_cases g rgn pp m)
    as [Heq | (pm & data & ct & Hok & _)]; [done |].
  by destruct (Hnot pm data ct).
Qed.

Lemma unrendered_rect g r pp m :
  (∀ pm data ct, ¬ renderable m pp pm data ct) →
  RenderPatternInRect g r pp m = ([], settled m pp).
Proof.
  intros Hnot.
  destruct (RenderPatternInRect_cases g r pp m)
    as [Heq | (pm & data & ct & Hok & _)]; [done |].
  by destruct (Hnot pm data ct).
Qed.

Lemma demo_null_separate : separate Demo.mac32 0.
Proof. intros P HP. discriminate HP. Qed.

(** X6: a pattern that fails any check of the renderers, a NULL or empty
    handle, a type other than 1, a missing pixel map or pixel data, a tile
    side that is not positive, a tile depth other than 8 or a missing colour
    table, makes both renderers return without a store and with the frame
    buffer as it was; when the pixel map and the pixel data are reached
    through different handles the whole machine is as it was, also when
    the failing check comes after the locks have been taken.  Every pattern
    either fails a check in this way or is rendered. *)
Theorem unsupported_pattern_is_noop g m pp :
  (unsupported m pp →
   (∀ rgn,
      ((RenderPatternInRgn g rgn pp m).1 = [] ∧
       ram (RenderPatternInRgn g rgn pp m).2 = ram m) ∧
      (separate m pp → RenderPatternInRgn g rgn pp m = ([], m))) ∧
   (∀ r,
      ((RenderPatternInRect g r pp m).1 = [] ∧
       ram (RenderPatternInRect g r pp m).2 = ram m) ∧
      (separate m pp → RenderPatternInRect g r pp m = ([], m)))) ∧
  (unsupported m pp ∨ ∃ pm data ct, renderable m pp pm data ct).
Proof.
  split; [| apply unsupported_or_renderable].
  intros Hbad.
  assert (∀ pm data ct, ¬ renderable m pp pm data ct) as Hnot
    by (intros pm data ct; by apply unsupported_not_renderable).
  split.
  - intros rgn. by apply no_store_result, unrendered_rgn.
  - intros r. by apply no_store_result, unrendered_rect.
Qed.

Lemma unsupported_pattern_is_noop_witness :
  unsupported Demo.mac32 0 ∧ separate Demo.mac32 0 ∧
  RenderPatternInRgn Demo.warm Demo.square 0 Demo.mac32 = ([], Demo.mac32) ∧
  RenderPatternInRect Demo.warm (mkRect 5 5 15 15) 0 Demo.mac32
  = ([], Demo.mac32).
Proof.
  assert (unsupported Demo.mac32 0) as Hbad by (by left).
  split; [exact Hbad |]. split; [apply demo_null_separate |].
  destruct (proj1 (unsupported_pattern_is_noop Demo.warm Demo.mac32 0) Hbad)
    as [Hrgn Hrect].
  split.
  - exact (proj2 (Hrgn Demo.square) demo_null_separate).
  - exact (proj2 (Hrect (mkRect 5 5 15 15)) demo_null_separate).
Defined.

(** ** Areas off the surface *)

Lemma rectLoop_empty g r pm data ct :
  (rright r ≤ 0 ∨ rbottom r ≤ 0 ∨
   gScreenWidth g ≤ rleft r ∨ gScreenHeight g ≤ rtop r ∨
   rright r ≤ rleft r ∨ rbottom r ≤ rtop r) →
  rectLoop g r pm data ct = [].
Proof.
  intros Hout. unfold rectLoop. case_decide as Hbox; [| done].
  rewrite clip_max_min in Hbox. simpl in Hbox. lia.
Qed.

Lemma rgnLoop_empty g rgn pm data ct :
  (rright (rgnBBox rgn) ≤ 0 ∨ rbottom (rgnBBox rgn) ≤ 0 ∨
   gScreenWidth g ≤ rleft (rgnBBox rgn) ∨
   gScreenHeight g ≤ rtop (rgnBBox rgn) ∨
   rright (rgnBBox rgn) ≤ rleft (rgnBBox rgn) ∨
   rbottom (rgnBBox rgn) ≤ rtop (rgnBBox rgn)) →
  rgnLoop g rgn pm data ct = [].
Proof.
  intros Hout. unfold rgnLoop. case_decide as Hbox; [| done].
  rewrite clip_max_min in Hbox. simpl in Hbox. lia.
Qed.

Lemma off_surface_rect g m pp r :
  (rright r ≤ 0 ∨ rbottom r ≤ 0 ∨
   gScreenWidth g ≤ rleft r ∨ gScreenHeight g ≤ rtop r ∨
   rright r ≤ rleft r ∨ rbottom r ≤ rtop r) →
  RenderPatternInRect g r pp m = ([], settled m pp).
Proof.
  intros Hout.
  destruct (RenderPatternInRect_cases g r pp m)
    as [Heq | (pm & data & ct & _ & Heq)]; [done |].
  rewrite Heq, (rectLoop_empty g r pm data ct Hout). simpl.
  by rewrite <- (ram_settled m pp), set_ram_same.
Qed.

Lemma off_surface_rgn g m pp rgn :
  (rright (rgnBBox rgn) ≤ 0 ∨ rbottom (rgnBBox rgn) ≤ 0 ∨
   gScreenWidth g ≤ rleft (rgnBBox rgn) ∨
   gScreenHeight g ≤ rtop (rgnBBox rgn) ∨
   rright (rgnBBox rgn) ≤ rleft (rgnBBox rgn) ∨
   rbottom (rgnBBox rgn) ≤ rtop (rgnBBox rgn)) →
  RenderPatternInRgn g rgn pp m = ([], settled m pp).
Proof.
  intros Hout.
  destruct (RenderPatternInRgn_cases g rgn pp m)
    as [Heq | (pm & data & ct & _ & Heq)]; [done |].
  rewrite Heq, (rgnLoop_empty g rgn pm data ct Hout). simpl.
  by rewrite <- (ram_settled m pp), set_ram_same.
Qed.

(** X7: a target rectangle that is empty, or lies wholly above, to the
    left of, below or to the right of the cached surface (which includes
    every target when the cached width or height is not positive), is
    rendered as nothing: no store, the frame buffer as it was, and, when
    the pattern's pixel map and pixel data are reached through different
    handles, the whole machine as it was. *)
Theorem off_surface_area_is_noop g m pp r :
  (rright r ≤ 0 ∨ rbottom r ≤ 0 ∨
   gScreenWidth g ≤ rleft r ∨ gScreenHeight g ≤ rtop r ∨
   rright r ≤ rleft r ∨ rbottom r ≤ rtop r) →
  (((RenderPatternInRect g r pp m).1 = [] ∧
    ram (RenderPatternInRect g r pp m).2 = ram m) ∧
   (separate m pp → RenderPatternInRect g r pp m = ([], m))) ∧
  (∀ rgn, rgnBBox rgn = r →
     ((RenderPatternInRgn g rgn pp m).1 = [] ∧
      ram (RenderPatternInRgn g rgn pp m).2 = ram m) ∧
     (separate m pp → RenderPatternInRgn g rgn pp m = ([], m))).
Proof.
  intros Hout. split.
  - by apply no_store_result, off_surface_rect.
  - intros rgn Hbox. subst r. by apply no_store_result, off_surface_rgn.
Qed.

Lemma off_surface_area_is_noop_witness :
  (rright (mkRect 5 20 15 30) ≤ 0 ∨ rbottom (mkRect 5 20 15 30) ≤ 0 ∨
   gScreenWidth Demo.warm ≤ rleft (mkRect 5 20 15 30) ∨
   gScreenHeight Demo.warm ≤ rtop (mkRect 5 20 15 30) ∨
   rright (mkRect 5 20 15 30) ≤ rleft (mkRect 5 20 15 30) ∨
   rbottom (mkRect 5 20 15 30) ≤ rtop (mkRect 5 20 15 30)) ∧
  separate Demo.mac32 10 ∧
  RenderPatternInRect Demo.warm (mkRect 5 20 15 30) 10 Demo.mac32
  = ([], Demo.mac32).
Proof.
  assert (rright (mkRect 5 20 15 30) ≤ 0 ∨ rbottom (mkRect 5 20 15 30) ≤ 0 ∨
          gScreenWidth Demo.warm ≤ rleft (mkRect 5 20 15 30) ∨
          gScreenHeight Demo.warm ≤ rtop (mkRect 5 20 15 30) ∨
          rright (mkRect 5 20 15 30) ≤ rleft (mkRect 5 20 15 30) ∨
          rbottom (mkRect 5 20 15 30) ≤ rtop (mkRect 5 20 15 30)) as Hout
    by (simpl; lia).
  split; [exact Hout |]. split; [apply demo_separate |].
  exact (proj2 (proj1 (off_surface_area_is_noop Demo.warm Demo.mac32 10
                         (mkRect 5 20 15 30) Hout)) demo_separate).
Defined.

(** ** The frame buffer after a sequence of stores *)

Lemma pokes_cons g s l mem : pokes g (s :: l) mem = pokes g l (poke g mem s).
Proof. done. Qed.

Lemma poke_lookup g mem s a :
  poke g mem s !! a =
  if decide (pixelAddr g (scol s) (srow s) = a) then Some (sval s)
  else mem !! a.
Proof. unfold poke, pixelAddr. apply lookup_insert. Qed.

(** An address that no store hits keeps its content. *)
Lemma pokes_lookup_other g l mem a :
  (∀ s, s ∈ l → pixelAddr g (scol s) (srow s) ≠ a) →
  pokes g l mem !! a = mem !! a.
Proof.
  revert mem. induction l as [| s l IH]; intros mem Hl; [done |].
  rewrite pokes_cons, IH.
  - rewrite poke_lookup. case_decide as Ha; [| done].
    destruct (Hl s); [apply list_elem_of_here | done].
  - intros s' Hs'. apply Hl. by apply list_elem_of_further.
Qed.

(** An address that some store hits holds the value of the stores that hit
    it, when they agree. *)
Lemma pokes_lookup_hit g l mem a v :
  (∀ s, s ∈ l → pixelAddr g (scol s) (srow s) = a → sval s = v) →
  (∃ s, s ∈ l ∧ pixelAddr g (scol s) (srow s) = a) →
  pokes g l mem !! a = Some v.
Proof.
  revert mem. induction l as [| s l IH]; intros mem Hv (s0 & Hs0 & Ha).
  { by apply elem_of_nil in Hs0. }
  rewrite pokes_cons.
  destruct (decide (Exists (λ s', pixelAddr g (scol s') (srow s') = a) l))
    as [Hlater | Hnot].
  - apply IH.
    + intros s' Hs'. apply Hv. by apply list_elem_of_further.
    + apply Exists_exists in Hlater as (s' & Hs' & Ha'). eauto.
  - rewrite pokes_lookup_other.
    + apply elem_of_cons in Hs0 as [-> | Hs0].
      * rewrite poke_lookup. case_decide; [| done].
        f_equal. apply Hv; [apply list_elem_of_here | done].
      * destruct Hnot. apply Exists_exists. eauto.
    + intros s' Hs' Ha'. apply Hnot, Exists_exists. eauto.
Qed.

(** The content of a hit address does not depend on what was there. *)
Lemma pokes_lookup_hit_any g l mem1 mem2 a :
  (∃ s, s ∈ l ∧ pixelAddr g (scol s) (srow s) = a) →
  pokes g l mem1 !! a = pokes g l mem2 !! a.
Proof.
  revert mem1 mem2. induction l as [| s l IH]; intros mem1 mem2 (s0 & Hs0 & Ha).
  { by apply elem_of_nil in Hs0. }
  rewrite !pokes_cons.
  destruct (decide (Exists (λ s', pixelAddr g (scol s') (srow s') = a) l))
    as [Hlater | Hnot].
  - apply IH. apply Exists_exists in Hlater as (s' & Hs' & Ha'). eauto.
  - assert (∀ s', s' ∈ l → pixelAddr g (scol s') (srow s') ≠ a) as Hl
      by (intros s' Hs' Ha'; apply Hnot, Exists_exists; eauto).
    rewrite !pokes_lookup_other by done.
    apply elem_of_cons in Hs0 as [-> | Hs0].
    + rewrite !poke_lookup. by case_decide.
    + destruct (Hl s0 Hs0 Ha).
Qed.

(** Storing the same pixels again changes nothing. *)
Lemma pokes_twice g l mem : pokes g l (pokes g l mem) = pokes g l mem.
Proof.
  apply map_eq. intros a.
  destruct (decide (Exists (λ s, pixelAddr g (scol s) (srow s) = a) l))
    as [Hhit | Hnot].
  - apply pokes_lookup_hit_any.
    apply Exists_exists in Hhit as (s & Hs & Ha). eauto.
  - rewrite pokes_lookup_other; [done |].
    intros s Hs Ha. apply Hnot, Exists_exists. eauto.
Qed.

(** With a stride that covers a row, two surface pixels have different
    addresses. *)
Lemma pixelAddr_inj g x1 y1 x2 y2 :
  rowsFit g → inSurface g x1 y1 → inSurface g x2 y2 →
  pixelAddr g x1 y1 = pixelAddr g x2 y2 → x1 = x2 ∧ y1 = y2.
Proof.
  unfold rowsFit, inSurface, pixelAddr.
  intros Hfit [Hx1 Hy1] [Hx2 Hy2] Heq.
  assert (y1 = y2) as ->.
  { destruct (Z.lt_trichotomy y1 y2) as [Hlt | [-> | Hgt]]; [| done |].
    - assert (gScreenRowBytes g * 1 ≤ gScreenRowBytes g * (y2 - y1))
        by (apply Z.mul_le_mono_nonneg_l; lia). lia.
    - assert (gScreenRowBytes g * 1 ≤ gScreenRowBytes g * (y1 - y2))
        by (apply Z.mul_le_mono_nonneg_l; lia). lia. }
  split; [lia | done].
Qed.

(** The frame buffer is [gScreenHeight] rows of [gScreenRowBytes] bytes
    from [gScreenBase]: with a stride that covers a row, the four bytes of
    a surface pixel lie inside it. *)
Lemma pixelAddr_in_buffer g x y :
  rowsFit g → inSurface g x y →
  gScreenBase g ≤ pixelAddr g x y ∧
  pixelAddr g x y + 4 ≤ gScreenBase g + gScreenHeight g * gScreenRowBytes g.
Proof.
  unfold rowsFit, inSurface, pixelAddr. intros Hfit [Hx Hy].
  assert (0 ≤ y * gScreenRowBytes g) by (apply Z.mul_nonneg_nonneg; lia).
  assert ((y + 1) * gScreenRowBytes g ≤ gScreenHeight g * gScreenRowBytes g)
    by (apply Z.mul_le_mono_nonneg_r; lia).
  lia.
Qed.

(** ** The frame buffer after a renderer *)

Lemma rectLoop_value g r pm data ct s :
  0 < tileWidth pm → 0 < tileHeight pm →
  s ∈ rectLoop g r pm data ct →
  (inRect r (scol s) (srow s) ∧ inSurface g (scol s) (srow s)) ∧
  sval s = paint pm data ct (scol s) (srow s).
Proof.
  intros HW HH (Hbox%inRect_clip & Hv)%elem_of_rectLoop.
  split; [done |]. unfold paint, tilePixel.
  by rewrite <- (tileCoord_mod _ _ HH), <- (tileCoord_mod _ _ HW).
Qed.

Lemma rgnLoop_value g rgn pm data ct s :
  0 < tileWidth pm → 0 < tileHeight pm →
  s ∈ rgnLoop g rgn pm data ct →
  (inRect (rgnBBox rgn) (scol s) (srow s) ∧ inSurface g (scol s) (srow s)) ∧
  PtInRgn (scol s) (srow s) rgn = true ∧
  sval s = paint pm data ct (scol s) (srow s).
Proof.
  intros HW HH (Hbox%inRect_clip & Hin & Hv)%elem_of_rgnLoop.
  split; [done |]. split; [done |]. unfold paint, tilePixel.
  by rewrite <- (tileCoord_mod _ _ HH), <- (tileCoord_mod _ _ HW).
Qed.

Lemma rectLoop_ram g r pm data ct mem :
  0 < tileWidth pm → 0 < tileHeight pm → rowsFit g →
  (∀ x y, inRect r x y → inSurface g x y →
     pokes g (rectLoop g r pm data ct) mem !! pixelAddr g x y
     = Some (paint pm data ct x y)) ∧
  (∀ a, (∀ x y, inRect r x y → inSurface g x y → pixelAddr g x y ≠ a) →
     pokes g (rectLoop g r pm data ct) mem !! a = mem !! a).
Proof.
  intros HW HH Hfit. split.
  - intros x y Hr Hs. apply pokes_lookup_hit.
    + intros s [[_ Hsurf] Hv]%(rectLoop_value _ _ _ _ _ _ HW HH) Ha.
      apply (pixelAddr_inj g _ _ _ _ Hfit Hsurf Hs) in Ha as [Hx Hy].
      by rewrite Hv, Hx, Hy.
    + destruct (rectLoop_covers g r pm data ct x y) as (s & Hin & <- & <-);
        [by apply inRect_clip | eauto].
  - intros a Hfar. apply pokes_lookup_other.
    intros s [[Hr Hs] _]%(rectLoop_value _ _ _ _ _ _ HW HH). by apply Hfar.
Qed.

Lemma rgnLoop_ram g rgn pm data ct mem :
  0 < tileWidth pm → 0 < tileHeight pm → rowsFit g →
  (∀ x y, inRect (rgnBBox rgn) x y → inSurface g x y →
     PtInRgn x y rgn = true →
     pokes g (rgnLoop g rgn pm data ct) mem !! pixelAddr g x y
     = Some (paint pm data ct x y)) ∧
  (∀ x y, inSurface g x y →
     ¬ (inRect (rgnBBox rgn) x y ∧ PtInRgn x y rgn = true) →
     pokes g (rgnLoop g rgn pm data ct) mem !! pixelAddr g x y
     = mem !! pixelAddr g x y) ∧
  (∀ a, (∀ x y, inRect (rgnBBox rgn) x y → inSurface g x y →
           PtInRgn x y rgn = true → pixelAddr g x y ≠ a) →
     pokes g (rgnLoop g rgn pm data ct) mem !! a = mem !! a).
Proof.
  intros HW HH Hfit. split; [| split].
  - intros x y Hr Hs Hin. apply pokes_lookup_hit.
    + intros s [[_ Hsurf] [_ Hv]]%(rgnLoop_value _ _ _ _ _ _ HW HH) Ha.
      apply (pixelAddr_inj g _ _ _ _ Hfit Hsurf Hs) in Ha as [Hx Hy].
      by rewrite Hv, Hx, Hy.
    + destruct (rgnLoop_covers g rgn pm data ct x y) as (s & Hs' & <- & <-);
        [by apply inRect_clip | done | eauto].
  - intros x y Hs Hout. apply pokes_lookup_other.
    intros s [[Hr Hsurf] [Hin _]]%(rgnLoop_value _ _ _ _ _ _ HW HH) Ha.
    apply (pixelAddr_inj g _ _ _ _ Hfit Hsurf Hs) in Ha as [Hx Hy].
    apply Hout. by rewrite <- Hx, <- Hy.
  - intros a Hfar. apply pokes_lookup_other.
    intros s [[Hr Hs] [Hin _]]%(rgnLoop_value _ _ _ _ _ _ HW HH).
    by apply Hfar.
Qed.

Lemma demo_rows_fit : rowsFit Demo.warm.
Proof. unfold rowsFit. simpl. lia. Qed.

(** X8: after the rectangle renderer has run on a renderable pattern, with
    a row stride that covers a row of pixels, every pixel of the target
    rectangle that lies on the surface holds the pattern colour of its
    coordinate, and every address that belongs to no such pixel holds what
    it held before. *)
Theorem rect_form_frame_buffer g m pp pm data ct r :
  renderable m pp pm data ct → rowsFit g →
  (∀ x y, inRect r x y → inSurface g x y →
     ram (RenderPatternInRect g r pp m).2 !! pixelAddr g x y
     = Some (paint pm data ct x y)) ∧
  (∀ a, (∀ x y, inRect r x y → inSurface g x y → pixelAddr g x y ≠ a) →
     ram (RenderPatternInRect g r pp m).2 !! a = ram m !! a).
Proof.
  intros Hok Hfit. pose proof Hok as (_ & _ & _ & _ & _ & HW & HH & _).
  rewrite (RenderPatternInRect_renderable _ _ _ _ _ _ _ Hok). simpl.
  by apply rectLoop_ram.
Qed.

Lemma rect_form_frame_buffer_witness :
  renderable Demo.mac32 10 Demo.tileMap Demo.demoTile Demo.demoTable ∧
  rowsFit Demo.warm ∧
  ram (RenderPatternInRect Demo.warm (mkRect (-3) 12 9 40) 10 Demo.mac32).2
    !! pixelAddr Demo.warm 19 0
  = Some (paint Demo.tileMap Demo.demoTile Demo.demoTable 19 0).
Proof.
  split; [apply demo_renderable |]. split; [apply demo_rows_fit |].
  apply (proj1 (rect_form_frame_buffer Demo.warm Demo.mac32 10 Demo.tileMap
                  Demo.demoTile Demo.demoTable (mkRect (-3) 12 9 40)
                  demo_renderable demo_rows_fit)).
  - unfold inRect. simpl. lia.
  - unfold inSurface. simpl. lia.
Defined.

(** X9: after the region renderer has run on a renderable pattern, with a
    row stride that covers a row of pixels, every surface pixel of the
    bounding box that is in the region holds the pattern colour of its
    coordinate, and every other surface pixel, in the bounding box or not,
    holds what it held before. *)
Theorem region_form_frame_buffer g m pp pm data ct rgn :
  renderable m pp pm data ct → rowsFit g →
  (∀ x y, inRect (rgnBBox rgn) x y → inSurface g x y →
     PtInRgn x y rgn = true →
     ram (RenderPatternInRgn g rgn pp m).2 !! pixelAddr g x y
     = Some (paint pm data ct x y)) ∧
  (∀ x y, inSurface g x y →
     ¬ (inRect (rgnBBox rgn) x y ∧ PtInRgn x y rgn = true) →
     ram (RenderPatternInRgn g rgn pp m).2 !! pixelAddr g x y
     = ram m !! pixelAddr g x y).
Proof.
  intros Hok Hfit. pose proof Hok as (_ & _ & _ & _ & _ & HW & HH & _).
  rewrite (RenderPatternInRgn_renderable _ _ _ _ _ _ _ Hok). simpl.
  destruct (rgnLoop_ram g rgn pm data ct (ram m) HW HH Hfit) as (? & ? & _).
  done.
Qed.

Lemma region_form_frame_buffer_witness :
  renderable Demo.mac32 10 Demo.tileMap Demo.demoTile Demo.demoTable ∧
  rowsFit Demo.warm ∧
  ram (RenderPatternInRgn Demo.warm Demo.corner 10 Demo.mac32).2
    !! pixelAddr Demo.warm 5 5
  = Some (paint Demo.tileMap Demo.demoTile Demo.demoTable 5 5) ∧
  ram (RenderPatternInRgn Demo.warm Demo.corner 10 Demo.mac32).2
    !! pixelAddr Demo.warm 14 14
  = ram Demo.mac32 !! pixelAddr Demo.warm 14 14.
Proof.
  split; [apply demo_renderable |]. split; [apply demo_rows_fit |].
  destruct (region_form_frame_buffer Demo.warm Demo.mac32 10 Demo.tileMap
              Demo.demoTile Demo.demoTable Demo.corner
              demo_renderable demo_rows_fit) as [Hin Hout].
  split.
  - apply Hin; [unfold inRect; simpl; lia | unfold inSurface; simpl; lia
               | reflexivity].
  - apply Hout; [unfold inSurface; simpl; lia |].
    intros [_ Hmember]. discriminate Hmember.
Defined.

(** X10: with a row stride that covers a row of pixels, every store of
    either renderer writes its four bytes inside the frame buffer, between
    the cached base address and the end of the last cached row. *)
Theorem stores_stay_in_frame_buffer g m pp s :
  rowsFit g → drawn g m pp s →
  gScreenBase g ≤ pixelAddr g (scol s) (srow s) ∧
  pixelAddr g (scol s) (srow s) + 4
  ≤ gScreenBase g + gScreenHeight g * gScreenRowBytes g.
Proof.
  intros Hfit Hs. apply pixelAddr_in_buffer; [done |].
  destruct Hs as [[rgn Hs] | [r Hs]].
  - by apply rgn_store_in_box, inRect_clip in Hs as [_ ?].
  - by apply rect_store_in_box, inRect_clip in Hs as [_ ?].
Qed.

Lemma stores_stay_in_frame_buffer_witness :
  rowsFit Demo.warm ∧
  drawn Demo.warm Demo.mac32 10 (mkStore 5 5 1201818) ∧
  1000 ≤ pixelAddr Demo.warm 5 5 ∧
  pixelAddr Demo.warm 5 5 + 4 ≤ 1000 + 20 * 80.
Proof.
  split; [apply demo_rows_fit |]. split; [apply demo_drawn |].
  exact (stores_stay_in_frame_buffer Demo.warm Demo.mac32 10
           (mkStore 5 5 1201818) demo_rows_fit demo_drawn).
Defined.

(** ** Rendering again *)

Lemma deref_view_settled {A} (f : Contents → A) mem m pp h :
  deref (viewOf f (heap (set_ram mem (settled m pp)))) h
  = deref (viewOf f (heap m)) h.
Proof.
  change (heap (set_ram mem (settled m pp))) with (heap (settled m pp)).
  by rewrite !deref_viewOf, deref_heap_settled.
Qed.

Lemma renderable_settled mem m pp pm data ct :
  renderable (set_ram mem (settled m pp)) pp pm data ct ↔
  renderable m pp pm data ct.
Proof.
  unfold renderable, pixpats, pixmaps, datas, ctabs.
  by setoid_rewrite deref_view_settled.
Qed.

Lemma settled_again mem m pp :
  settled (set_ram mem (settled m pp)) pp = set_ram mem (settled m pp).
Proof.
  unfold settled at 1. unfold pixpats, pixmaps, datas.
  rewrite !deref_view_settled. fold (pixpats m).
  destruct (deref (pixpats m) pp) as [P |] eqn:HP; [| done].
  rewrite !deref_view_settled. fold (pixmaps m) (datas m).
  destruct (deref (pixmaps m) (patMap P)) as [pm |] eqn:Hpm; [| done].
  destruct (deref (datas m) (patData P)) as [data |] eqn:Hd; [| done].
  case_decide as Hsame; [| done].
  unfold settled. rewrite HP, Hpm, Hd. case_decide; [| done].
  unfold set_ram, set_heap. simpl. by rewrite HLock_HLock.
Qed.

(** A renderer run on the machine another run has left, whatever the frame
    buffer holds by then. *)
Lemma RenderPatternInRgn_after g rgn pp m mem :
  RenderPatternInRgn g rgn pp (set_ram mem (settled m pp)) =
  ((RenderPatternInRgn g rgn pp m).1,
   set_ram (pokes g (RenderPatternInRgn g rgn pp m).1 mem) (settled m pp)).
Proof.
  destruct (unsupported_or_renderable m pp) as [Hbad | (pm & data & ct & Hok)].
  - rewrite (unrendered_rgn g rgn pp m), unrendered_rgn.
    + by rewrite settled_again.
    + intros pm data ct Hok%renderable_settled.
      by apply (unsupported_not_renderable m pp pm data ct).
    + intros pm data ct. by apply unsupported_not_renderable.
  - rewrite (RenderPatternInRgn_renderable g rgn pp m pm data ct Hok).
    rewrite (RenderPatternInRgn_renderable g rgn pp _ pm data ct
               (proj2 (renderable_settled mem m pp pm data ct) Hok)).
    by rewrite settled_again.
Qed.

Lemma RenderPatternInRect_after g r pp m mem :
  RenderPatternInRect g r pp (set_ram mem (settled m pp)) =
  ((RenderPatternInRect g r pp m).1,
   set_ram (pokes g (RenderPatternInRect g r pp m).1 mem) (settled m pp)).
Proof.
  destruct (unsupported_or_renderable m pp) as [Hbad | (pm & data & ct & Hok)].
  - rewrite (unrendered_rect g r pp m), unrendered_rect.
    + by rewrite settled_again.
    + intros pm data ct Hok%renderable_settled.
      by apply (unsupported_not_renderable m pp pm data ct).
    + intros pm data ct. by apply unsupported_not_renderable.
  - rewrite (RenderPatternInRect_renderable g r pp m pm data ct Hok).
    rewrite (RenderPatternInRect_renderable g r pp _ pm data ct
               (proj2 (renderable_settled mem m pp pm data ct) Hok)).
    by rewrite settled_again.
Qed.

(** X11: rendering is idempotent: running a renderer again on the machine
    it has just left performs the same stores and leaves that machine
    unchanged, handle flags and frame buffer included. *)
Theorem rendering_again_changes_nothing g m pp :
  (∀ rgn,
     RenderPatternInRgn g rgn pp (RenderPatternInRgn g rgn pp m).2
     = RenderPatternInRgn g rgn pp m) ∧
  (∀ r,
     RenderPatternInRect g r pp (RenderPatternInRect g r pp m).2
     = RenderPatternInRect g r pp m).
Proof.
  split.
  - intros rgn. rewrite RenderPatternInRgn_state at 1.
    rewrite RenderPatternInRgn_after, pokes_twice.
    rewrite <- RenderPatternInRgn_state. by destruct (RenderPatternInRgn _ _ _ _).
  - intros r. rewrite RenderPatternInRect_state at 1.
    rewrite RenderPatternInRect_after, pokes_twice.
    rewrite <- RenderPatternInRect_state. by destruct (RenderPatternInRect _ _ _ _).
Qed.

(** ** How many stores *)

Lemma length_bind_const {A B} (f : A → list B) (k : nat) (l : list A) :
  (∀ x, x ∈ l → length (f x) = k) → length (l ≫= f) = (length l * k)%nat.
Proof.
  induction l as [| x l IH]; intros Hk; [done |].
  rewrite bind_cons, length_app, IH, Hk; [simpl; lia | apply list_elem_of_here |].
  intros y Hy. apply Hk. by apply list_elem_of_further.
Qed.

Lemma length_bind_le {A B} (f : A → list B) (k : nat) (l : list A) :
  (∀ x, x ∈ l → (length (f x) ≤ k)%nat) →
  (length (l ≫= f) ≤ length l * k)%nat.
Proof.
  induction l as [| x l IH]; intros Hk; [done |].
  rewrite bind_cons, length_app.
  assert (length (f x) ≤ k)%nat by (apply Hk, list_elem_of_here).
  assert (length (l ≫= f) ≤ length l * k)%nat
    by (apply IH; intros y Hy; by apply Hk, list_elem_of_further).
  simpl. lia.
Qed.

Lemma length_rectLoop g r pm data ct :
  length (rectLoop g r pm data ct) =
  (Z.to_nat (rbottom (clip g r) - rtop (clip g r)) *
   Z.to_nat (rright (clip g r) - rleft (clip g r)))%nat.
Proof.
  unfold rectLoop. case_decide as Hbox.
  - unfold for_range at 1.
    rewrite (length_bind_const _ (Z.to_nat (rright (clip g r) - rleft (clip g r)))).
    + by rewrite length_seqZ.
    + intros y _. unfold for_range.
      rewrite (length_bind_const _ 1%nat); [rewrite length_seqZ; lia | done].
  - cbn [length].
    destruct (Z_le_gt_dec (rbottom (clip g r) - rtop (clip g r)) 0).
    + assert (Z.to_nat (rbottom (clip g r) - rtop (clip g r)) = 0%nat) as ->
        by lia. done.
    + assert (Z.to_nat (rright (clip g r) - rleft (clip g r)) = 0%nat) as ->
        by lia. lia.
Qed.

Lemma length_rgnLoop_le g rgn pm data ct :
  (length (rgnLoop g rgn pm data ct)
   ≤ length (rectLoop g (rgnBBox rgn) pm data ct))%nat.
Proof.
  rewrite length_rectLoop. unfold rgnLoop.
  case_decide as Hbox; [| apply Nat.le_0_l].
  unfold for_range at 1.
  etrans; [apply (length_bind_le _
    (Z.to_nat (rright (clip g (rgnBBox rgn)) - rleft (clip g (rgnBBox rgn))))) |].
  - intros y _. unfold for_range.
    etrans; [apply (length_bind_le _ 1%nat) |].
    + intros x _. destruct (PtInRgn x y rgn); simpl; lia.
    + rewrite length_seqZ. lia.
  - by rewrite length_seqZ.
Qed.

Lemma NoDup_rectLoop g r pm data ct : NoDup (rectLoop g r pm data ct).
Proof.
  unfold rectLoop. case_decide; [| constructor].
  unfold for_range at 1. apply NoDup_bind; [| | apply NoDup_seqZ].
  - intros y1 y2 s _ _ (x1 & _ & ->%list_elem_of_singleton)%elem_of_for_range
      (x2 & _ & Heq%list_elem_of_singleton)%elem_of_for_range.
    congruence.
  - intros y _. unfold for_range. apply NoDup_bind; [| | apply NoDup_seqZ].
    + intros x1 x2 s _ _ ->%list_elem_of_singleton Heq%list_elem_of_singleton.
      congruence.
    + intros x _. apply NoDup_singleton.
Qed.

Lemma NoDup_rgnLoop g rgn pm data ct : NoDup (rgnLoop g rgn pm data ct).
Proof.
  unfold rgnLoop. case_decide; [| constructor].
  unfold for_range at 1. apply NoDup_bind; [| | apply NoDup_seqZ].
  - intros y1 y2 s _ _ (x1 & _ & Hs1)%elem_of_for_range
      (x2 & _ & Hs2)%elem_of_for_range.
    destruct (PtInRgn x1 y1 rgn); [| by apply elem_of_nil in Hs1].
    destruct (PtInRgn x2 y2 rgn); [| by apply elem_of_nil in Hs2].
    apply list_elem_of_singleton in Hs1, Hs2. congruence.
  - intros y _. unfold for_range. apply NoDup_bind; [| | apply NoDup_seqZ].
    + intros x1 x2 s _ _ Hs1 Hs2.
      destruct (PtInRgn x1 y rgn); [| by apply elem_of_nil in Hs1].
      destruct (PtInRgn x2 y rgn); [| by apply elem_of_nil in Hs2].
      apply list_elem_of_singleton in Hs1, Hs2. congruence.
    + intros x _. destruct (PtInRgn x y rgn);
        [apply NoDup_singleton | constructor].
Qed.

Lemma same_pixel_same_store (l : list Store) i j s s' :
  NoDup l →
  (∀ t t', t ∈ l → t' ∈ l → scol t = scol t' → srow t = srow t' → t = t') →
  l !! i = Some s → l !! j = Some s' →
  scol s = scol s' → srow s = srow s' → i = j.
Proof.
  intros Hnd Hsame Hi Hj Hx Hy.
  assert (s = s') as <-.
  { apply Hsame; try done; apply list_elem_of_lookup; eauto. }
  by eapply NoDup_lookup.
Qed.

(** X12: on a renderable pattern the rectangle renderer performs exactly
    one store for each pixel of the clipped rectangle, height times width
    stores in all, the region renderer at most as many for the same
    bounding box, and neither stores to the same pixel twice. *)
Theorem one_store_per_pixel g m pp pm data ct :
  renderable m pp pm data ct →
  (∀ r,
     length (RenderPatternInRect g r pp m).1 =
     (Z.to_nat (rbottom (clip g r) - rtop (clip g r)) *
      Z.to_nat (rright (clip g r) - rleft (clip g r)))%nat) ∧
  (∀ rgn,
     (length (RenderPatternInRgn g rgn pp m).1
      ≤ length (RenderPatternInRect g (rgnBBox rgn) pp m).1)%nat) ∧
  (∀ r i j s s',
     (RenderPatternInRect g r pp m).1 !! i = Some s →
     (RenderPatternInRect g r pp m).1 !! j = Some s' →
     scol s = scol s' → srow s = srow s' → i = j) ∧
  (∀ rgn i j s s',
     (RenderPatternInRgn g rgn pp m).1 !! i = Some s →
     (RenderPatternInRgn g rgn pp m).1 !! j = Some s' →
     scol s = scol s' → srow s = srow s' → i = j).
Proof.
  intros Hok. split; [| split; [| split]].
  - intros r. rewrite (RenderPatternInRect_renderable _ _ _ _ _ _ _ Hok).
    apply length_rectLoop.
  - intros rgn.
    rewrite (RenderPatternInRgn_renderable _ _ _ _ _ _ _ Hok),
      (RenderPatternInRect_renderable _ _ _ _ _ _ _ Hok).
    apply length_rgnLoop_le.
  - intros r i j s s'.
    rewrite (RenderPatternInRect_renderable _ _ _ _ _ _ _ Hok). cbn [fst].
    apply same_pixel_same_store; [apply NoDup_rectLoop |].
    intros t t' [_ Hv]%elem_of_rectLoop [_ Hv']%elem_of_rectLoop Hx Hy.
    destruct t, t'. simpl in *. subst. done.
  - intros rgn i j s s'.
    rewrite (RenderPatternInRgn_renderable _ _ _ _ _ _ _ Hok). cbn [fst].
    apply same_pixel_same_store; [apply NoDup_rgnLoop |].
    intros t t' (_ & _ & Hv)%elem_of_rgnLoop (_ & _ & Hv')%elem_of_rgnLoop Hx Hy.
    destruct t, t'. simpl in *. subst. done.
Qed.

Lemma one_store_per_pixel_witness :
  renderable Demo.mac32 10 Demo.tileMap Demo.demoTile Demo.demoTable ∧
  length (RenderPatternInRect Demo.warm (mkRect (-3) 12 9 40) 10 Demo.mac32).1
  = (Z.to_nat (rbottom (clip Demo.warm (mkRect (-3) 12 9 40))
               - rtop (clip Demo.warm (mkRect (-3) 12 9 40))) *
     Z.to_nat (rright (clip Demo.warm (mkRect (-3) 12 9 40))
               - rleft (clip Demo.warm (mkRect (-3) 12 9 40))))%nat.
Proof.
  split; [apply demo_renderable |].
  exact (proj1 (one_store_per_pixel Demo.warm Demo.mac32 10 Demo.tileMap
                  Demo.demoTile Demo.demoTable demo_renderable)
               (mkRect (-3) 12 9 40)).
Defined.

(** ** Reads from the tile *)

Lemma tileCoord_range c size : 0 < size → 0 ≤ tileCoord c size < size.
Proof.
  intros Hsize. rewrite tileCoord_mod by done. by apply Z.mod_pos_bound.
Qed.

Lemma tileOffset_range pm x y :
  0 < tileWidth pm ≤ tileStride pm → 0 < tileHeight pm →
  0 ≤ tileOffset pm x y < tileHeight pm * tileStride pm.
Proof.
  intros [HW Hstride] HH. unfold tileOffset.
  pose proof (tileCoord_range y (tileHeight pm) HH) as Hy.
  pose proof (tileCoord_range x (tileWidth pm) HW) as Hx.
  assert (0 ≤ tileCoord y (tileHeight pm) * tileStride pm)
    by (apply Z.mul_nonneg_nonneg; lia).
  assert ((tileCoord y (tileHeight pm) + 1) * tileStride pm
          ≤ tileHeight pm * tileStride pm)
    by (apply Z.mul_le_mono_nonneg_r; lia).
  lia.
Qed.

Lemma demo_tile_stride : tileWidth Demo.tileMap ≤ tileStride Demo.tileMap.
Proof. by vm_compute. Qed.

(** X13: when the tile's row stride is at least its width, every index the
    renderers read from the pixel data lies inside the tile, at an offset
    from 0 up to, not including, height times stride; the value stored is
    the conversion of the colour-table entry with that index. *)
Theorem tile_reads_in_bounds g m pp pm data ct s :
  renderable m pp pm data ct →
  tileWidth pm ≤ tileStride pm →
  drawn g m pp s →
  0 ≤ tileOffset pm (scol s) (srow s) < tileHeight pm * tileStride pm ∧
  sval s = pixel32 (ctTable ct (data (tileOffset pm (scol s) (srow s)))).
Proof.
  intros Hok Hstride Hs.
  pose proof Hok as (_ & _ & _ & _ & _ & HW & HH & _).
  split; [apply tileOffset_range; [lia | done] |].
  destruct Hs as [[rgn Hs] | [r Hs]].
  - rewrite (RenderPatternInRgn_renderable _ _ _ _ _ _ _ Hok) in Hs.
    by apply elem_of_rgnLoop in Hs as (_ & _ & Hv).
  - rewrite (RenderPatternInRect_renderable _ _ _ _ _ _ _ Hok) in Hs.
    by apply elem_of_rectLoop in Hs as (_ & Hv).
Qed.

Lemma tile_reads_in_bounds_witness :
  renderable Demo.mac32 10 Demo.tileMap Demo.demoTile Demo.demoTable ∧
  tileWidth Demo.tileMap ≤ tileStride Demo.tileMap ∧
  drawn Demo.warm Demo.mac32 10 (mkStore 5 5 1201818) ∧
  0 ≤ tileOffset Demo.tileMap 5 5
    < tileHeight Demo.tileMap * tileStride Demo.tileMap.
Proof.
  split; [apply demo_renderable |]. split; [apply demo_tile_stride |].
  split; [apply demo_drawn |].
  exact (proj1 (tile_reads_in_bounds Demo.warm Demo.mac32 10 Demo.tileMap
                  Demo.demoTile Demo.demoTable (mkStore 5 5 1201818)
                  demo_renderable demo_tile_stride demo_drawn)).
Defined.

(** ** Tile sides beyond a short *)

Lemma s16_wraps_negative z : 32768 ≤ z ≤ 65535 → s16 z = z - 65536.
Proof.
  intros Hz. unfold s16.
  rewrite <- (Z.mod_unique_pos (z + 32768) 65536 1 (z - 32768)); lia.
Qed.

Lemma demo_huge_tile :
  deref (pixpats Demo.macHuge) 10 = Some (mkPixPat 1 20 21) ∧
  deref (pixmaps Demo.macHuge) 20 = Some Demo.hugeMap.
Proof. done. Qed.

(** X14: the tile sides are kept in shorts.  A pixel map whose bounds are
    between 32768 and 65535 apart in either direction has a side that
    wraps to a negative short, and the pattern is not rendered at all: no
    store, the frame buffer as it was, and, when the pixel map and the
    pixel data are reached through different handles, the whole machine as
    it was. *)
Theorem tile_side_beyond_short_not_rendered g m pp P pm :
  deref (pixpats m) pp = Some P →
  deref (pixmaps m) (patMap P) = Some pm →
  32768 ≤ rright (bounds pm) - rleft (bounds pm) ≤ 65535 ∨
  32768 ≤ rbottom (bounds pm) - rtop (bounds pm) ≤ 65535 →
  (tileWidth pm < 0 ∨ tileHeight pm < 0) ∧
  (∀ rgn,
     ((RenderPatternInRgn g rgn pp m).1 = [] ∧
      ram (RenderPatternInRgn g rgn pp m).2 = ram m) ∧
     (separate m pp → RenderPatternInRgn g rgn pp m = ([], m))) ∧
  (∀ r,
     ((RenderPatternInRect g r pp m).1 = [] ∧
      ram (RenderPatternInRect g r pp m).2 = ram m) ∧
     (separate m pp → RenderPatternInRect g r pp m = ([], m))).
Proof.
  intros HP Hpm Hwide.
  assert (tileWidth pm < 0 ∨ tileHeight pm < 0) as Hneg.
  { unfold tileWidth, tileHeight.
    destruct Hwide as [Hw | Hh];
      [left | right]; rewrite s16_wraps_negative by done; lia. }
  split; [done |].
  assert (∀ pm' data ct, ¬ renderable m pp pm' data ct) as Hnot.
  { intros pm' data ct (P' & HP' & _ & Hpm' & _ & HW & HH & _).
    assert (P' = P) as -> by congruence.
    assert (pm' = pm) as -> by congruence. lia. }
  split.
  - intros rgn. by apply no_store_result, unrendered_rgn.
  - intros r. by apply no_store_result, unrendered_rect.
Qed.

Lemma demo_huge_separate : separate Demo.macHuge 10.
Proof. intros P HP. vm_compute in HP. by injection HP as <-. Qed.

Lemma tile_side_beyond_short_not_rendered_witness :
  (32768 ≤ rright (bounds Demo.hugeMap) - rleft (bounds Demo.hugeMap) ≤ 65535 ∨
   32768 ≤ rbottom (bounds Demo.hugeMap) - rtop (bounds Demo.hugeMap) ≤ 65535) ∧
  separate Demo.macHuge 10 ∧
  RenderPatternInRect Demo.warm (mkRect 5 5 15 15) 10 Demo.macHuge
  = ([], Demo.macHuge).
Proof.
  assert (32768 ≤ rright (bounds Demo.hugeMap) - rleft (bounds Demo.hugeMap)
            ≤ 65535 ∨
          32768 ≤ rbottom (bounds Demo.hugeMap) - rtop (bounds Demo.hugeMap)
            ≤ 65535) as Hwide
    by (left; simpl; lia).
  split; [exact Hwide |]. split; [apply demo_huge_separate |].
  exact (proj2 (proj2 (proj2 (tile_side_beyond_short_not_rendered Demo.warm
                                Demo.macHuge 10 (mkPixPat 1 20 21)
                                Demo.hugeMap (proj1 demo_huge_tile)
                                (proj2 demo_huge_tile) Hwide))
                      (mkRect 5 5 15 15))
               demo_huge_separate).
Defined.

(** ** The window walk *)

Lemma IsRectInAnyWindowStruc_true m r wins :
  IsRectInAnyWindowStruc m r wins = true ↔
  ∃ w s, w ∈ removelast wins ∧
         deref (rgns m) (strucRgn w) = Some s ∧ RectInRgn r s = true.
Proof.
  rewrite IsRectInAnyWindowStruc_removelast, existsb_exists. split.
  - intros (w & Hw%list_elem_of_In & Hhit).
    destruct (deref (rgns m) (strucRgn w)) as [s |] eqn:Hs; [| done].
    eauto.
  - intros (w & s & Hw%list_elem_of_In & Hs & Hhit).
    exists w. by rewrite Hs.
Qed.

(** X15: the walk along the window list never looks at the last window:
    replacing it changes nothing, and an empty list or a list of one window
    answers false.  The answer is true exactly when a window before the
    last has a structure region, through a handle that is neither NULL nor
    empty, that shares a pixel with the rectangle. *)
Theorem window_walk_skips_last m r ws w w' :
  IsRectInAnyWindowStruc m r (ws ++ [w])
  = IsRectInAnyWindowStruc m r (ws ++ [w']) ∧
  (IsRectInAnyWindowStruc m r (ws ++ [w]) = true ↔
   ∃ v s, v ∈ ws ∧ deref (rgns m) (strucRgn v) = Some s ∧
          RectInRgn r s = true) ∧
  IsRectInAnyWindowStruc m r [] = false ∧
  IsRectInAnyWindowStruc m r [w] = false.
Proof.
  split; [| split; [| done]].
  - by rewrite !IsRectInAnyWindowStruc_removelast, !removelast_last.
  - by rewrite IsRectInAnyWindowStruc_true, removelast_last.
Qed.

(** ** The repaint, end to end *)

Lemma demo_fill_guard :
  shouldRepair (EnsureScreenInfo Demo.mac32 (set_gInPatch 1 Demo.cold)).1
    Demo.mac32 (Some (rgnBBox Demo.corner)) 4 = true.
Proof. by vm_compute. Qed.

Lemma demo_erase_guard :
  shouldRepair (EnsureScreenInfo Demo.mac32 (set_gInPatch 1 Demo.cold)).1
    Demo.mac32 (Some (mkRect 5 5 15 15)) 2 = true.
Proof. by vm_compute. Qed.

Lemma demo_back_pattern :
  renderable Demo.mac32 (wmgrBackPat Demo.mac32) Demo.tileMap Demo.demoTile
    Demo.demoTable.
Proof. exists (mkPixPat 1 20 21). by vm_compute. Qed.

(** X16: a top-level FillCRgn whose guard holds, on a renderable pattern
    and with a row stride that covers a row, leaves the pattern colour in
    every surface pixel of the region and, in every other surface pixel,
    what the original FillCRgn had left there. *)
Theorem fill_patch_paints_the_region oldF g m rgn pp R pm data ct :
  gInPatch g = 0 →
  deref (rgns (oldF rgn pp m)) rgn = Some R →
  shouldRepair (EnsureScreenInfo (oldF rgn pp m) (set_gInPatch 1 g)).1
    (oldF rgn pp m) (Some (rgnBBox R)) 4 = true →
  renderable (oldF rgn pp m) pp pm data ct →
  rowsFit (EnsureScreenInfo (oldF rgn pp m) (set_gInPatch 1 g)).2 →
  let g2 := (EnsureScreenInfo (oldF rgn pp m) (set_gInPatch 1 g)).2 in
  let after := (PatchedFillCRgn oldF rgn pp (g, m)).2 in
  (∀ x y, inRect (rgnBBox R) x y → inSurface g2 x y →
     PtInRgn x y R = true →
     ram after !! pixelAddr g2 x y = Some (paint pm data ct x y)) ∧
  (∀ x y, inSurface g2 x y →
     ¬ (inRect (rgnBBox R) x y ∧ PtInRgn x y R = true) →
     ram after !! pixelAddr g2 x y
     = ram (oldF rgn pp m) !! pixelAddr g2 x y).
Proof.
  intros Hflag HR Hguard Hok Hfit g2 after. subst after.
  pose proof Hok as (_ & _ & _ & _ & _ & HW & HH & _).
  rewrite (PatchedFillCRgn_top oldF rgn pp g m Hflag). cbn [snd].
  rewrite HR, Hguard. fold g2.
  rewrite (RenderPatternInRgn_renderable _ _ _ _ _ _ _ Hok). simpl.
  destruct (rgnLoop_ram g2 R pm data ct (ram (oldF rgn pp m)) HW HH Hfit)
    as (? & ? & _).
  done.
Qed.

Lemma fill_patch_paints_the_region_witness :
  gInPatch Demo.cold = 0 ∧
  ram (PatchedFillCRgn Demo.idleFillCRgn 51 10 (Demo.cold, Demo.mac32)).2
    !! pixelAddr (EnsureScreenInfo Demo.mac32 (set_gInPatch 1 Demo.cold)).2 5 5
  = Some (paint Demo.tileMap Demo.demoTile Demo.demoTable 5 5).
Proof.
  split; [reflexivity |].
  apply (proj1 (fill_patch_paints_the_region Demo.idleFillCRgn Demo.cold
                  Demo.mac32 51 10 Demo.corner Demo.tileMap Demo.demoTile
                  Demo.demoTable eq_refl eq_refl demo_fill_guard
                  demo_renderable demo_rows_fit)).
  - unfold inRect. simpl. lia.
  - unfold inSurface. change (gScreenWidth _) with 20.
    change (gScreenHeight _) with 20. lia.
  - reflexivity.
Defined.

(** X17: a top-level EraseRect whose guard holds, when the Window Manager
    port's background pattern is renderable and the row stride covers a
    row, leaves the pattern colour in every surface pixel of the rectangle
    and does not touch any address outside those pixels.  The pattern used
    is the port's background pattern, not an argument of the call. *)
Theorem erase_patch_paints_the_rect oldE g m rc pm data ct :
  gInPatch g = 0 →
  shouldRepair (EnsureScreenInfo (oldE (Some rc) m) (set_gInPatch 1 g)).1
    (oldE (Some rc) m) (Some rc) 2 = true →
  renderable (oldE (Some rc) m) (wmgrBackPat (oldE (Some rc) m)) pm data ct →
  rowsFit (EnsureScreenInfo (oldE (Some rc) m) (set_gInPatch 1 g)).2 →
  let g2 := (EnsureScreenInfo (oldE (Some rc) m) (set_gInPatch 1 g)).2 in
  let after := (PatchedEraseRect oldE (Some rc) (g, m)).2 in
  (∀ x y, inRect rc x y → inSurface g2 x y →
     ram after !! pixelAddr g2 x y = Some (paint pm data ct x y)) ∧
  (∀ a, (∀ x y, inRect rc x y → inSurface g2 x y → pixelAddr g2 x y ≠ a) →
     ram after !! a = ram (oldE (Some rc) m) !! a).
Proof.
  intros Hflag Hguard Hok Hfit g2 after. subst after.
  pose proof Hok as (_ & _ & _ & _ & _ & HW & HH & _).
  rewrite (PatchedEraseRect_top oldE (Some rc) g m Hflag). cbn [snd].
  rewrite Hguard. fold g2.
  rewrite (RenderPatternInRect_renderable _ _ _ _ _ _ _ Hok). simpl.
  by apply rectLoop_ram.
Qed.

Lemma erase_patch_paints_the_rect_witness :
  gInPatch Demo.cold = 0 ∧
  ram (PatchedEraseRect Demo.idleEraseRect (Some (mkRect 5 5 15 15))
         (Demo.cold, Demo.mac32)).2
    !! pixelAddr (EnsureScreenInfo Demo.mac32 (set_gInPatch 1 Demo.cold)).2
         14 14
  = Some (paint Demo.tileMap Demo.demoTile Demo.demoTable 14 14).
Proof.
  split; [reflexivity |].
  apply (proj1 (erase_patch_paints_the_rect Demo.idleEraseRect Demo.cold
                  Demo.mac32 (mkRect 5 5 15 15) Demo.tileMap Demo.demoTile
                  Demo.demoTable eq_refl demo_erase_guard
                  demo_back_pattern demo_rows_fit)).
  - unfold inRect. simpl. lia.
  - unfold inSurface. change (gScreenWidth _) with 20.
    change (gScreenHeight _) with 20. lia.
Defined.

(** ** Installation *)

Section InstallFacts.

Variable gestalt32BitQD : Z.
Variable PatchedFillCRgnAddr PatchedEraseRectAddr : Z.

Lemma install_bails s :
  gestaltErr s ≠ 0 ∨ gestaltValue s < gestalt32BitQD →
  _start gestalt32BitQD PatchedFillCRgnAddr PatchedEraseRectAddr s
  = Retro68FreeGlobals s.
Proof.
  intros Hbail. unfold _start.
  case_decide; [done |]. case_decide; [done | lia].
Qed.

Lemma install_patches s :
  gestaltErr s = 0 → gestalt32BitQD ≤ gestaltValue s →
  _start gestalt32BitQD PatchedFillCRgnAddr PatchedEraseRectAddr s =
  mkSystem (gestaltErr s) (gestaltValue s)
    (<[kEraseRectTrap := PatchedEraseRectAddr]>
       (<[kFillCRgnTrap := PatchedFillCRgnAddr]> (toolTraps s)))
    (initRsrc s)
    (if decide (initRsrc s ≠ 0) then HLock (initRsrc s) (codeBlocks s)
     else codeBlocks s)
    (if decide (initRsrc s ≠ 0) then attached s ∖ {[initRsrc s]}
     else attached s)
    (toolTraps s !!! kFillCRgnTrap)
    (toolTraps s !!! kEraseRectTrap)
    (globalsFreed s).
Proof.
  intros Herr Hqd. unfold _start.
  case_decide; [done |]. case_decide; [lia |].
  unfold GetToolTrapAddress, SetToolTrapAddress. simpl.
  rewrite lookup_total_insert_ne by done.
  by case_decide.
Qed.

End InstallFacts.

(** X18: [_start] patches both traps exactly when Gestalt succeeds and
    reports at least 32-bit QuickDraw.  Otherwise it changes no trap, saves
    no address and leaves its resource alone, and only releases the
    runtime's globals.  When it patches, the two table entries become the
    two patches, the saved addresses are the entries that were there, the
    EraseRect entry being read after the FillCRgn entry was replaced; every
    other trap is unchanged, and the INIT resource, when found, is locked
    and detached from its resource map. *)
Theorem install_outcome q32 aFill aErase s :
  (gestaltErr s ≠ 0 ∨ gestaltValue s < q32 →
   toolTraps (_start q32 aFill aErase s) = toolTraps s ∧
   savedFillCRgn (_start q32 aFill aErase s) = savedFillCRgn s ∧
   savedEraseRect (_start q32 aFill aErase s) = savedEraseRect s ∧
   codeBlocks (_start q32 aFill aErase s) = codeBlocks s ∧
   attached (_start q32 aFill aErase s) = attached s ∧
   globalsFreed (_start q32 aFill aErase s) = true) ∧
  (gestaltErr s = 0 ∧ q32 ≤ gestaltValue s →
   GetToolTrapAddress kFillCRgnTrap (_start q32 aFill aErase s) = aFill ∧
   GetToolTrapAddress kEraseRectTrap (_start q32 aFill aErase s) = aErase ∧
   savedFillCRgn (_start q32 aFill aErase s)
   = GetToolTrapAddress kFillCRgnTrap s ∧
   savedEraseRect (_start q32 aFill aErase s)
   = GetToolTrapAddress kEraseRectTrap s ∧
   (∀ t, t ≠ kFillCRgnTrap → t ≠ kEraseRectTrap →
      GetToolTrapAddress t (_start q32 aFill aErase s)
      = GetToolTrapAddress t s) ∧
   globalsFreed (_start q32 aFill aErase s) = globalsFreed s ∧
   (initRsrc s ≠ 0 →
    Z.testbit (HGetState (codeBlocks (_start q32 aFill aErase s))
                 (initRsrc s)) 7 = true ∧
    initRsrc s ∉ attached (_start q32 aFill aErase s)) ∧
   (initRsrc s = 0 →
    codeBlocks (_start q32 aFill aErase s) = codeBlocks s ∧
    attached (_start q32 aFill aErase s) = attached s)).
Proof.
  split.
  - intros Hbail. by rewrite install_bails.
  - intros [Herr Hqd]. rewrite install_patches by done.
    unfold GetToolTrapAddress. simpl.
    split; [by rewrite lookup_total_insert_ne, lookup_total_insert_eq |].
    split; [by rewrite lookup_total_insert_eq |].
    split; [done |]. split; [done |].
    split; [intros t H1 H2; by rewrite !lookup_total_insert_ne |].
    split; [done |]. split.
    + intros Hself. case_decide; [| done].
      split; [apply HLock_locked |].
      intros [_ Hout]%elem_of_difference. apply Hout.
      by apply elem_of_singleton.
    + intros Hnull. by case_decide.
Qed.

Lemma install_outcome_witness :
  (gestaltErr (DemoInstall.fresh 0 560) = 0 ∧
   512 ≤ gestaltValue (DemoInstall.fresh 0 560)) ∧
  GetToolTrapAddress kFillCRgnTrap
    (_start 512 4198400 4198656 (DemoInstall.fresh 0 560)) = 4198400 ∧
  savedEraseRect (_start 512 4198400 4198656 (DemoInstall.fresh 0 560))
  = GetToolTrapAddress kEraseRectTrap (DemoInstall.fresh 0 560) ∧
  (gestaltErr (DemoInstall.fresh 0 256) ≠ 0 ∨
   gestaltValue (DemoInstall.fresh 0 256) < 512) ∧
  toolTraps (_start 512 4198400 4198656 (DemoInstall.fresh 0 256))
  = toolTraps (DemoInstall.fresh 0 256).
Proof.
  assert (gestaltErr (DemoInstall.fresh 0 560) = 0 ∧
          512 ≤ gestaltValue (DemoInstall.fresh 0 560)) as Hgood
    by (simpl; lia).
  assert (gestaltErr (DemoInstall.fresh 0 256) ≠ 0 ∨
          gestaltValue (DemoInstall.fresh 0 256) < 512) as Hold
    by (right; simpl; lia).
  split; [exact Hgood |].
  destruct (proj2 (install_outcome 512 4198400 4198656
                     (DemoInstall.fresh 0 560)) Hgood)
    as (Hfill & _ & _ & Herase & _).
  split; [exact Hfill |]. split; [exact Herase |].
  split; [exact Hold |].
  exact (proj1 (proj1 (install_outcome 512 4198400 4198656
                         (DemoInstall.fresh 0 256)) Hold)).
Defined.

(** X19: [_start] does not notice an earlier installation.  Run a second
    time, it finds its own patches in the trap table and saves them as the
    originals: the trap table stays as the first run left it, and both
    saved addresses are now the patches themselves, the addresses saved by
    the first run being overwritten. *)
Theorem second_install_saves_the_patches q32 aFill aErase s :
  gestaltErr s = 0 → q32 ≤ gestaltValue s →
  let once := _start q32 aFill aErase s in
  let twice := _start q32 aFill aErase once in
  toolTraps twice = toolTraps once ∧
  savedFillCRgn twice = aFill ∧
  savedEraseRect twice = aErase ∧
  savedFillCRgn once = GetToolTrapAddress kFillCRgnTrap s ∧
  savedEraseRect once = GetToolTrapAddress kEraseRectTrap s.
Proof.
  intros Herr Hqd once twice. subst twice once.
  rewrite (install_patches q32 aFill aErase s Herr Hqd).
  rewrite install_patches by done. simpl.
  split; [| split; [| split; [| done]]].
  - apply map_eq. intros t. rewrite !lookup_insert.
    by repeat case_decide.
  - by rewrite lookup_total_insert_ne, lookup_total_insert_eq.
  - by rewrite lookup_total_insert_eq.
Qed.

Lemma second_install_saves_the_patches_witness :
  gestaltErr (DemoInstall.fresh 0 560) = 0 ∧
  512 ≤ gestaltValue (DemoInstall.fresh 0 560) ∧
  savedFillCRgn (_start 512 4198400 4198656 (DemoInstall.fresh 0 560))
  = GetToolTrapAddress kFillCRgnTrap (DemoInstall.fresh 0 560) ∧
  savedFillCRgn (_start 512 4198400 4198656
                   (_start 512 4198400 4198656 (DemoInstall.fresh 0 560)))
  = 4198400.
Proof.
  assert (512 ≤ gestaltValue (DemoInstall.fresh 0 560)) as Hqd
    by (simpl; lia).
  split; [reflexivity |]. split; [exact Hqd |].
  destruct (second_install_saves_the_patches 512 4198400 4198656
              (DemoInstall.fresh 0 560) eq_refl Hqd)
    as (_ & Htwice & _ & Honce & _).
  split; [exact Honce | exact Htwice].
Defined.

(** ** The region renderer as a filter *)

Lemma filter_bind {A B} (P : B → Prop) `{!∀ x, Decision (P x)}
    (f : A → list B) (l : list A) :
  filter P (l ≫= f) = l ≫= (λ x, filter P (f x)).
Proof.
  induction l as [| x l IH]; [done |].
  by rewrite !bind_cons, filter_app, IH.
Qed.

Lemma bind_ext_in {A B} (f h : A → list B) (l : list A) :
  (∀ x, x ∈ l → f x = h x) → l ≫= f = l ≫= h.
Proof.
  induction l as [| x l IH]; intros Heq; [done |].
  rewrite !bind_cons, Heq, IH; [done | | apply list_elem_of_here].
  intros y Hy. by apply Heq, list_elem_of_further.
Qed.

Lemma rgnLoop_filter g rgn pm data ct :
  rgnLoop g rgn pm data ct =
  filter (λ s, PtInRgn (scol s) (srow s) rgn = true)
         (rectLoop g (rgnBBox rgn) pm data ct).
Proof.
  unfold rgnLoop, rectLoop. case_decide; [| done].
  unfold for_range. rewrite filter_bind.
  apply bind_ext_in. intros y _. rewrite filter_bind.
  apply bind_ext_in. intros x _.
  rewrite filter_singleton; [| exact []]. simpl.
  destruct (PtInRgn x y rgn); by case_decide.
Qed.

(** X20: the region renderer performs exactly the stores of the rectangle
    renderer for the region's bounding box that fall on points of the
    region, with the same values and in the same order. *)
Theorem region_stores_are_filtered_rect_stores g rgn pp m :
  (RenderPatternInRgn g rgn pp m).1 =
  filter (λ s, PtInRgn (scol s) (srow s) rgn = true)
         (RenderPatternInRect g (rgnBBox rgn) pp m).1.
Proof.
  destruct (RenderPatternInRgn_cases g rgn pp m)
    as [Heq | (pm & data & ct & Hok & Heq)].
  - destruct (RenderPatternInRect_cases g (rgnBBox rgn) pp m)
      as [Heq' | (pm & data & ct & Hok & Heq')].
    + by rewrite Heq, Heq'.
    + rewrite (RenderPatternInRgn_renderable _ _ _ _ _ _ _ Hok) in Heq.
      injection Heq as Hnil _.
      rewrite (RenderPatternInRgn_renderable _ _ _ _ _ _ _ Hok), Heq'.
      apply rgnLoop_filter.
  - rewrite Heq, (RenderPatternInRect_renderable _ _ _ _ _ _ _ Hok).
    apply rgnLoop_filter.
Qed.

(** ** Calls made by the original traps *)


